(** * Instagram Chat Analyzer: the decoding and aggregation pipeline

    A shallow embedding of the pure part of [src/App.tsx]: the text
    decoding helpers, the per-upload normalisation loop of
    [handleFileUpload], the content filter and the two rankings
    ([getTopMessages], [getChartData]) and the chronological selectors.

    Conventions of the embedding.
    - A JavaScript string is the list of its UTF-16 code units.
    - A JavaScript number that holds an integer is a [Z].
    - Code that may throw returns an [outcome].
    - A plain object used as a dictionary is modelled by its own
      properties, enumerated in the order [Object.keys] uses (array
      indices in ascending order, then the other keys in creation
      order), and by the names it inherits from [Object.prototype]
      ([constructor], [toString], [__proto__], ...), which a read
      [o[k]] finds when [o] has no own property [k].
    - [Array.prototype.sort] is the stable sort that ECMAScript 2019
      requires.  When the comparison function is not consistent (in
      this program: when a count is not a number) ECMAScript leaves the
      order to the implementation; the statements that depend on the
      order are made for consistent comparisons only. *)

From Stdlib Require Import String Ascii ZArith List Bool Lia Sorted Permutation.
Import ListNotations.
Local Open Scope Z_scope.

(** ** Strings *)

(** A string as JavaScript sees it: a sequence of 16-bit code units. *)
Definition jsstring := list Z.

Definition codeUnit (c : ascii) : Z := Z.of_N (N_of_ascii c).

(** A literal: every character of an ASCII literal is one code unit. *)
Fixpoint str (s : string) : jsstring :=
  match s with
  | EmptyString => []
  | String c rest => codeUnit c :: str rest
  end.

Fixpoint jsstring_eqb (a b : jsstring) : bool :=
  match a, b with
  | [], [] => true
  | x :: a', y :: b' => (x =? y) && jsstring_eqb a' b'
  | _, _ => false
  end.

(** ** Exceptions *)

Inductive exn : Type :=
| Error (message : string)
| TypeError (message : string).

Inductive outcome (A : Type) : Type :=
| Returned (value : A)
| Thrown (e : exn).
Arguments Returned {A} value.
Arguments Thrown {A} e.

Definition bind {A B} (m : outcome A) (k : A -> outcome B) : outcome B :=
  match m with
  | Returned a => k a
  | Thrown e => Thrown e
  end.

(** [try { m } catch (e) { handler e }] *)
Definition try_catch {A} (m : outcome A) (handler : exn -> outcome A) : outcome A :=
  match m with
  | Returned a => Returned a
  | Thrown e => handler e
  end.

Notation "x <- m ;; k" := (bind m (fun x => k))
  (at level 61, m at next level, right associativity).

Definition succeeds {A} (m : outcome A) : bool :=
  match m with Returned _ => true | Thrown _ => false end.

(** ** The [utf8] package

    [App.tsx] imports [utf8] (line 22) and calls [utf8.decode]; the
    package is a dependency, its source is not part of the repository. *)
Module Utf8.

(** Modelled from the spec: the first step of the [utf8] package's
    [decode], which is not under [src/].  Spec 4.1 reads the characters
    as byte values and leaves characters above 255 open; the package
    reads the string as code points: a high surrogate followed by a low
    surrogate is one value, every other code unit stands for itself. *)
Fixpoint ucs2decode (s : jsstring) : list Z :=
  match s with
  | [] => []
  | value :: rest =>
      match rest with
      | [] => [value]
      | extra :: rest' =>
          if (0xD800 <=? value) && (value <=? 0xDBFF) then
            if Z.land extra 0xFC00 =? 0xDC00 then
              (Z.shiftl (Z.land value 0x3FF) 10 + Z.land extra 0x3FF + 0x10000)
                :: ucs2decode rest'
            else value :: ucs2decode rest
          else value :: ucs2decode rest
      end
  end.

(** Modelled from the spec: the last step of the [utf8] package's
    [decode], which is not under [src/]: the decoded code points as a
    string (spec 4.1, "producing the final string"), those above 0xFFFF
    as a surrogate pair. *)
Fixpoint ucs2encode (codePoints : list Z) : jsstring :=
  match codePoints with
  | [] => []
  | value :: rest =>
      if 0xFFFF <? value then
        let v := value - 0x10000 in
        Z.lor (Z.land (Z.shiftr v 10) 0x3FF) 0xD800
          :: Z.lor 0xDC00 (Z.land v 0x3FF)
          :: ucs2encode rest
      else value :: ucs2encode rest
  end.

(** [readContinuationByte] once the index is known to be in range: the
    test and the payload of a continuation byte (10xxxxxx). *)
Definition readContinuationByte (b : Z) : outcome Z :=
  let continuationByte := Z.land b 0xFF in
  if Z.land continuationByte 0xC0 =? 0x80
  then Returned (Z.land continuationByte 0x3F)
  else Thrown (Error "Invalid continuation byte").

Definition checkScalarValue (codePoint : Z) : outcome unit :=
  if (0xD800 <=? codePoint) && (codePoint <=? 0xDFFF)
  then Thrown (Error "Lone surrogate is not a scalar value")
  else Returned tt.

Definition invalidByteIndex {A} : outcome A := Thrown (Error "Invalid byte index").

(** Modelled from the spec: the decoding loop of the [utf8] package's
    [decode], which is not under [src/].  Spec 4.1: the characters are
    reinterpreted as byte values (each character's low 8 bits) and that
    byte stream is decoded as UTF-8; a malformed sequence is a decode
    failure.  One to four values are consumed per decoded symbol. *)
Fixpoint decodeSymbols (byteArray : list Z) : outcome (list Z) :=
  match byteArray with
  | [] => Returned []
  | b1 :: r1 =>
      let byte1 := Z.land b1 0xFF in
      if Z.land byte1 0x80 =? 0 then
        (* 1-byte sequence *)
        tmp <- decodeSymbols r1 ;; Returned (byte1 :: tmp)
      else if Z.land byte1 0xE0 =? 0xC0 then
        (* 2-byte sequence *)
        match r1 with
        | [] => invalidByteIndex
        | b2 :: r2 =>
            byte2 <- readContinuationByte b2 ;;
            let codePoint := Z.lor (Z.shiftl (Z.land byte1 0x1F) 6) byte2 in
            if 0x80 <=? codePoint
            then tmp <- decodeSymbols r2 ;; Returned (codePoint :: tmp)
            else Thrown (Error "Invalid continuation byte")
        end
      else if Z.land byte1 0xF0 =? 0xE0 then
        (* 3-byte sequence *)
        match r1 with
        | [] => invalidByteIndex
        | b2 :: r2 =>
            byte2 <- readContinuationByte b2 ;;
            match r2 with
            | [] => invalidByteIndex
            | b3 :: r3 =>
                byte3 <- readContinuationByte b3 ;;
                let codePoint :=
                  Z.lor (Z.lor (Z.shiftl (Z.land byte1 0x0F) 12) (Z.shiftl byte2 6)) byte3 in
                if 0x0800 <=? codePoint
                then _ <- checkScalarValue codePoint ;;
                     tmp <- decodeSymbols r3 ;; Returned (codePoint :: tmp)
                else Thrown (Error "Invalid continuation byte")
            end
        end
      else if Z.land byte1 0xF8 =? 0xF0 then
        (* 4-byte sequence *)
        match r1 with
        | [] => invalidByteIndex
        | b2 :: r2 =>
            byte2 <- readContinuationByte b2 ;;
            match r2 with
            | [] => invalidByteIndex
            | b3 :: r3 =>
                byte3 <- readContinuationByte b3 ;;
                match r3 with
                | [] => invalidByteIndex
                | b4 :: r4 =>
                    byte4 <- readContinuationByte b4 ;;
                    let codePoint :=
                      Z.lor (Z.lor (Z.lor (Z.shiftl (Z.land byte1 0x07) 0x12)
                                          (Z.shiftl byte2 0x0C))
                                   (Z.shiftl byte3 0x06)) byte4 in
                    if (0x010000 <=? codePoint) && (codePoint <=? 0x10FFFF)
                    then tmp <- decodeSymbols r4 ;; Returned (codePoint :: tmp)
                    else Thrown (Error "Invalid UTF-8 detected")
                end
            end
        end
      else Thrown (Error "Invalid UTF-8 detected")
  end.

(** Modelled from the spec: [utf8.decode] of the [utf8] package, which is
    not under [src/]: the string whose characters, taken as bytes, are
    the UTF-8 encoding of the result; throws on a malformed sequence. *)
Definition decode (byteString : jsstring) : outcome jsstring :=
  codePoints <- decodeSymbols (ucs2decode byteString) ;;
  Returned (ucs2encode codePoints).

End Utf8.


(** ** Text decoding: [decodeUnicode] (App.tsx, lines 44-57) *)

(** [parseInt] of one hexadecimal digit, [None] outside [[0-9a-fA-F]]. *)
Definition hexDigit (c : Z) : option Z :=
  if (48 <=? c) && (c <=? 57) then Some (c - 48)
  else if (97 <=? c) && (c <=? 102) then Some (c - 87)
  else if (65 <=? c) && (c <=? 70) then Some (c - 55)
  else None.

(** [parseInt(p1, 16)] for the four code units of the capture group. *)
Definition parseHex4 (h1 h2 h3 h4 : Z) : option Z :=
  match hexDigit h1, hexDigit h2, hexDigit h3, hexDigit h4 with
  | Some a, Some b, Some c, Some d => Some (((a * 16 + b) * 16 + c) * 16 + d)
  | _, _, _, _ => None
  end.

Definition backslash : Z := 92.
Definition letter_u : Z := 117.

(** [unicodeString.replace(/\\u([0-9a-fA-F]{4})/g, (match, p1) =>
    String.fromCharCode(parseInt(p1, 16)))]: the matches are taken from
    left to right and do not overlap. *)
Fixpoint replaceEscapes (s : jsstring) : jsstring :=
  match s with
  | [] => []
  | c :: tl =>
      match tl with
      | u :: h1 :: h2 :: h3 :: h4 :: rest =>
          match (if (c =? backslash) && (u =? letter_u)
                 then parseHex4 h1 h2 h3 h4 else None) with
          | Some codeUnit => codeUnit :: replaceEscapes rest
          | None => c :: replaceEscapes tl
          end
      | _ => c :: replaceEscapes tl
      end
  end.

Definition decodeUnicode (unicodeString : jsstring) : outcome jsstring :=
  match unicodeString with
  | [] => Returned []                       (* if (!unicodeString) return "" *)
  | _ =>
      let byteString := replaceEscapes unicodeString in
      Utf8.decode byteString
  end.

(** ** String methods used by the filter *)

(** WhiteSpace and LineTerminator code units, which [trim] removes. *)
Definition isWhiteSpace (c : Z) : bool :=
  existsb (Z.eqb c)
    [0x09; 0x0A; 0x0B; 0x0C; 0x0D; 0x20; 0xA0; 0x1680; 0x2028; 0x2029;
     0x202F; 0x205F; 0x3000; 0xFEFF]
  || ((0x2000 <=? c) && (c <=? 0x200A)).

Fixpoint trimStart (s : jsstring) : jsstring :=
  match s with
  | [] => []
  | c :: rest => if isWhiteSpace c then trimStart rest else s
  end.

Definition trimEnd (s : jsstring) : jsstring := rev (trimStart (rev s)).

Definition trim (s : jsstring) : jsstring := trimEnd (trimStart s).

Definition isAscii (c : Z) : bool := (0 <=? c) && (c <=? 0x7F).

(** [toLowerCase]: A-Z become a-z.  The case mapping of code units
    outside ASCII is not modelled (they are left as they are);
    [filterMessages] rejects a content that has such a code unit
    whatever its lower-case form is. *)
Definition toLowerCase (s : jsstring) : jsstring :=
  map (fun c => if (65 <=? c) && (c <=? 90) then c + 32 else c) s.

Fixpoint startsWith (s searchString : jsstring) {struct searchString} : bool :=
  match searchString, s with
  | [], _ => true
  | _ :: _, [] => false
  | b :: searchString', c :: s' => (c =? b) && startsWith s' searchString'
  end.

Fixpoint includes (s searchString : jsstring) : bool :=
  startsWith s searchString
  || match s with
     | [] => false
     | _ :: s' => includes s' searchString
     end.

(** ** Arrays: [sort] and [slice] *)

Section Arrays.
Context {A : Type}.

(** One step of a stable insertion: [x], which came before every
    element of [l] in the input, goes before the first element it
    does not have to follow. *)
Fixpoint insertSorted (compareFn : A -> A -> Z) (x : A) (l : list A) : list A :=
  match l with
  | [] => [x]
  | y :: l' =>
      if compareFn x y <=? 0 then x :: l
      else y :: insertSorted compareFn x l'
  end.

(** [l.sort(compareFn)], stable. *)
Fixpoint sort (compareFn : A -> A -> Z) (l : list A) : list A :=
  match l with
  | [] => []
  | x :: l' => insertSorted compareFn x (sort compareFn l')
  end.

(** A relative index of [slice]: negative values count from the end. *)
Definition relativeIndex (len i : Z) : Z :=
  if i <? 0 then Z.max (len + i) 0 else Z.min i len.

(** [l.slice(start, end)]; [end] is [None] when the argument is absent. *)
Definition slice (l : list A) (start : Z) (end_ : option Z) : list A :=
  let len := Z.of_nat (length l) in
  let k := relativeIndex len start in
  let final := match end_ with
               | None => len
               | Some e => relativeIndex len e
               end in
  firstn (Z.to_nat (final - k)) (skipn (Z.to_nat k) l).
End Arrays.

(** ** Plain objects used as dictionaries *)
Module Obj.

(** The own properties, in creation order. *)
Definition t (V : Type) := list (jsstring * V).

Definition empty {V} : t V := [].

(** [o[k]], [None] for [undefined]. *)
Fixpoint get {V} (o : t V) (k : jsstring) : option V :=
  match o with
  | [] => None
  | (k', v) :: o' => if jsstring_eqb k' k then Some v else get o' k
  end.

(** [o[k] = v]: an existing property keeps its place. *)
Fixpoint set {V} (o : t V) (k : jsstring) (v : V) : t V :=
  match o with
  | [] => [(k, v)]
  | (k', v') :: o' =>
      if jsstring_eqb k' k then (k', v) :: o'
      else (k', v') :: set o' k v
  end.

(** The methods that every object created by [{}] inherits from
    [Object.prototype]. *)
Definition inheritedMethods : list jsstring :=
  map str
    ["constructor"; "hasOwnProperty"; "isPrototypeOf"; "propertyIsEnumerable";
     "toLocaleString"; "toString"; "valueOf";
     "__defineGetter__"; "__defineSetter__"; "__lookupGetter__"; "__lookupSetter__"]%string.

Definition inheritedMethod (k : jsstring) : bool :=
  existsb (jsstring_eqb k) inheritedMethods.

(** The accessor [__proto__]: reading it gives [Object.prototype];
    assigning a value that is not an object to it does nothing. *)
Definition proto : jsstring := str "__proto__".

(** The names found on [Object.prototype]. *)
Definition inherited (k : jsstring) : bool :=
  jsstring_eqb k proto || inheritedMethod k.

(** What a read [o[k]] finds. *)
Inductive property (V : Type) : Type :=
| Own (v : V)
| Inherited
| Undefined.
Arguments Own {V} v.
Arguments Inherited {V}.
Arguments Undefined {V}.

(** [o[k]] on an object created by [{}]: the own property if there is
    one, else what [Object.prototype] has under that name (a function,
    or [Object.prototype] itself for [__proto__]), else [undefined]. *)
Definition lookup {V} (o : t V) (k : jsstring) : property V :=
  match get o k with
  | Some v => Own v
  | None => if inherited k then Inherited else Undefined
  end.

Definition isDigit (c : Z) : bool := (48 <=? c) && (c <=? 57).

Definition decimal (k : jsstring) : Z :=
  fold_left (fun acc c => acc * 10 + (c - 48)) k 0.

(** An array index: the canonical decimal numeral of an integer
    from 0 to 2^32 - 2. *)
Definition arrayIndex (k : jsstring) : option Z :=
  match k with
  | [] => None
  | c :: rest =>
      if forallb isDigit k
         && (negb (c =? 48) || match rest with [] => true | _ => false end)
         && (decimal k <? 2 ^ 32 - 1)
      then Some (decimal k)
      else None
  end.

Definition isArrayIndex (k : jsstring) : bool :=
  match arrayIndex k with Some _ => true | None => false end.

Definition indexOf (k : jsstring) : Z :=
  match arrayIndex k with Some i => i | None => 0 end.

(** [Object.entries(o)]: own property order, array indices first in
    ascending numeric order, then the other keys in creation order. *)
Definition entries {V} (o : t V) : list (jsstring * V) :=
  sort (fun a b => indexOf (fst a) - indexOf (fst b))
       (filter (fun e => isArrayIndex (fst e)) o)
  ++ filter (fun e => negb (isArrayIndex (fst e))) o.

Definition keys {V} (o : t V) : list jsstring := map fst (entries o).

Definition values {V} (o : t V) : list V := map snd (entries o).

End Obj.

(** ** Messages *)

(** A JSON value, for the fields of a record that the program only
    copies. *)
#[warnings="-register-all"]
Inductive JSON : Type :=
| JNull
| JBool (b : bool)
| JNumber (n : Z)
| JString (s : jsstring)
| JArray (items : list JSON)
| JObject (fields : list (jsstring * JSON)).

(** An element of [json.messages] as [JSON.parse] yields it: the
    interface [Message] is asserted, not checked, so the three declared
    fields may be missing, and other fields may be there. *)
Module Raw.
Record t : Type := {
  sender_name : option jsstring;
  content : option jsstring;
  timestamp_ms : option Z;
  others : list (jsstring * JSON)
}.
End Raw.

(** [interface Message] (lines 34-38), with the fields that the spread
    [...msg] copies along. *)
Record Message : Type := {
  sender_name : jsstring;
  content : jsstring;
  timestamp_ms : option Z;
  others : list (jsstring * JSON)
}.

(** [interface UserMessages] (lines 40-42). *)
Definition UserMessages := Obj.t (list Message).

(** ** The normalisation loop of [handleFileUpload] (lines 179-207) *)

(** [value || ""] *)
Definition orEmpty (value : option jsstring) : jsstring :=
  match value with
  | Some s => s
  | None => []
  end.

(** [{ ...msg, content: decodedContent, sender_name: decodedSenderName }] *)
Definition spread (msg : Raw.t) (decodedContent decodedSenderName : jsstring) : Message :=
  {| sender_name := decodedSenderName;
     content := decodedContent;
     timestamp_ms := Raw.timestamp_ms msg;
     others := Raw.others msg |}.

(** The [try] block of the loop body (lines 187-198).  [userMessages]
    is created by [{}] (line 179): under a sender name that
    [Object.prototype] has, line 190 reads a truthy value, no array is
    created and [push] is not a function. *)
Definition tryBlock (userMessages : UserMessages) (msg : Raw.t)
    (content senderName : jsstring) : outcome UserMessages :=
  decodedContent <- Utf8.decode content ;;
  decodedSenderName <- Utf8.decode senderName ;;
  let userMessages :=
    match Obj.lookup userMessages decodedSenderName with
    | Obj.Undefined => Obj.set userMessages decodedSenderName []
    | Obj.Own _ | Obj.Inherited => userMessages
    end in
  match Obj.lookup userMessages decodedSenderName with
  | Obj.Own array =>
      Returned (Obj.set userMessages decodedSenderName
                  (array ++ [spread msg decodedContent decodedSenderName]))
  | Obj.Inherited =>
      Thrown (TypeError "userMessages[decodedSenderName].push is not a function")
  | Obj.Undefined =>
      Thrown (TypeError "Cannot read properties of undefined (reading 'push')")
  end.

(** The callback of [messages.forEach] (lines 181-205): what the [try]
    block throws is logged by the [catch] and the loop goes on. *)
Definition forEachBody (userMessages : UserMessages) (msg : Raw.t) : outcome UserMessages :=
  let content := orEmpty (Raw.content msg) in
  let senderName := orEmpty (Raw.sender_name msg) in
  try_catch (tryBlock userMessages msg content senderName)
            (fun decodeError => Returned userMessages).

Fixpoint forEach {A S} (l : list A) (callback : S -> A -> outcome S) (state : S) : outcome S :=
  match l with
  | [] => Returned state
  | x :: l' => state' <- callback state x ;; forEach l' callback state'
  end.

(** Lines 179-205: the mapping built from [json.messages]. *)
Definition normalize (messages : list Raw.t) : outcome UserMessages :=
  forEach messages forEachBody Obj.empty.

(** The [onload] callback after [JSON.parse]: [setData] is reached when
    nothing was thrown, otherwise the previous data stay. *)
Definition handleFileUpload (data : option UserMessages) (messages : list Raw.t)
  : option UserMessages :=
  match normalize messages with
  | Returned userMessages => Some userMessages
  | Thrown error => data
  end.

(** Number of messages held by a mapping, over all senders. *)
Definition totalMessages (userMessages : UserMessages) : nat :=
  list_sum (map (fun e => length (snd e)) userMessages).

(** ** [filterMessages] (lines 64-78) *)

Definition withTrimmedContent (msg : Message) : Message :=
  {| sender_name := sender_name msg;
     content := trim (content msg);
     timestamp_ms := timestamp_ms msg;
     others := others msg |}.

Definition nonEmpty (s : jsstring) : bool :=
  match s with [] => false | _ :: _ => true end.

Definition keepMessage (msg : Message) : bool :=
  nonEmpty (content msg)
  && negb (includes (toLowerCase (content msg)) (str "liked a message"))
  && negb (includes (toLowerCase (content msg)) (str "attachment"))
  && negb (includes (toLowerCase (content msg)) (str "like"))
  && negb (existsb (fun c => negb (isAscii c)) (content msg)).

Definition filterMessages (messages : list Message) : list Message :=
  filter keepMessage (map withTrimmedContent messages).

(** ** [getTopMessages] (lines 80-114) *)

(** What the charts are given: the labels and the data of the one
    dataset; no dataset at all reads as empty data.  The colours are
    constants of the source. *)
Record ChartData (V : Type) : Type := {
  labels : list jsstring;
  data : list V
}.
Arguments Build_ChartData {V} labels data.
Arguments labels {V} c.
Arguments data {V} c.

(** What [messageCounts] holds under a content: a number, or, when the
    first read of line 87 found a method of [Object.prototype] under
    the content [name], the string that [+ 1] makes of it: the text of
    that function followed by one character "1" for each time the
    content was counted. *)
Inductive Count : Type :=
| Num (n : Z)
| FunctionText (name : jsstring) (ones : nat).

(** [messageCounts[msg.content] = (messageCounts[msg.content] || 0) + 1]
    on an object created by [{}] (line 84).  A number other than 0 and
    a string are truthy; an inherited method or [Object.prototype]
    itself is truthy and [+ 1] makes a string of it; the assignment to
    [__proto__] of a string does nothing. *)
Definition countMessage (messageCounts : Obj.t Count) (msg : Message) : Obj.t Count :=
  match Obj.lookup messageCounts (content msg) with
  | Obj.Own (Num n) =>
      Obj.set messageCounts (content msg) (Num ((if n =? 0 then 0 else n) + 1))
  | Obj.Own (FunctionText name ones) =>
      Obj.set messageCounts (content msg) (FunctionText name (S ones))
  | Obj.Inherited =>
      if jsstring_eqb (content msg) Obj.proto then messageCounts
      else Obj.set messageCounts (content msg) (FunctionText (content msg) 1)
  | Obj.Undefined =>
      Obj.set messageCounts (content msg) (Num (0 + 1))
  end.

Definition messageCountsOf (filteredMessages : list Message) : Obj.t Count :=
  fold_left countMessage filteredMessages Obj.empty.

(** [x - y] as the comparison function returns it to [sort]: the
    difference of two numbers; otherwise [NaN], which [sort] takes
    as [+0]. *)
Definition subtract (x y : Count) : Z :=
  match x, y with
  | Num a, Num b => a - b
  | _, _ => 0
  end.

(** [Object.entries(messageCounts).sort((a, b) => b[1] - a[1]).slice(0, 7)].
    When a count is not a number the comparison function is not an
    ordering and the order that [sort] gives is left to the
    implementation: what is stated about the order of the entries is
    stated for counts that are numbers. *)
Definition sortedMessages (messages : list Message) : list (jsstring * Count) :=
  let filteredMessages := filterMessages messages in
  let messageCounts := messageCountsOf filteredMessages in
  slice (sort (fun a b => subtract (snd b) (snd a)) (Obj.entries messageCounts))
        0 (Some 7).

Definition getTopMessages (messages : list Message) : ChartData Count :=
  {| labels := map fst (sortedMessages messages);
     data := map snd (sortedMessages messages) |}.

(** ** The chronological selectors (lines 116-130) *)

(** [msg.timestamp_ms] as a condition: [undefined] and [0] are falsy. *)
Definition truthyTimestamp (msg : Message) : bool :=
  match timestamp_ms msg with
  | Some t => negb (t =? 0)
  | None => false
  end.

(** [a.timestamp_ms! - b.timestamp_ms!] on messages that passed the filter. *)
Definition timestampOf (msg : Message) : Z :=
  match timestamp_ms msg with
  | Some t => t
  | None => 0
  end.

Definition getSortedMessagesAscending (messages : list Message) : list Message :=
  sort (fun a b => timestampOf a - timestampOf b) (filter truthyTimestamp messages).

Definition getLatestMessages (messages : list Message) (count : Z) : list Message :=
  let sortedMessages := getSortedMessagesAscending messages in
  slice sortedMessages (- count) None.

Definition getEarliestMessages (messages : list Message) (count : Z) : list Message :=
  let sortedMessages := getSortedMessagesAscending messages in
  slice sortedMessages 0 (Some count).

(** ** [getChartData] (lines 217-251) and [allMessages] (line 314) *)

(** [topUsers]: the senders with their counts, sorted, the first seven.
    [data[user]] is read for own keys only, so it is never [undefined]
    (lemma [keys_own]). *)
Definition topUsers (data : UserMessages) : list (jsstring * Z) :=
  let userLabels := Obj.keys data in
  let messageCounts :=
    map (fun user =>
           (user, match Obj.get data user with
                  | Some userMessages => Z.of_nat (length userMessages)
                  | None => 0
                  end)) userLabels in
  slice (sort (fun a b => snd b - snd a) messageCounts) 0 (Some 7).

Definition getChartData (data : option UserMessages) : ChartData Z :=
  match data with
  | None => {| labels := []; data := [] |}
  | Some data =>
      {| labels := map fst (topUsers data);
         data := map snd (topUsers data) |}
  end.

(** [data ? Object.values(data).flat() : []] *)
Definition allMessages (data : option UserMessages) : list Message :=
  match data with
  | Some data => concat (Obj.values data)
  | None => []
  end.

(** ** Notions used in the statements *)

(** The sequence stored for a sender, empty when the sender is unknown. *)
Definition seqAt (userMessages : UserMessages) (sender : jsstring) : list Message :=
  match Obj.get userMessages sender with
  | Some array => array
  | None => []
  end.

(** [userMessages[sender].push(message)], the array being created first
    when the sender is new. *)
Definition push (userMessages : UserMessages) (sender : jsstring) (message : Message)
  : UserMessages :=
  Obj.set userMessages sender (seqAt userMessages sender ++ [message]).

(** Both fields of the record decode. *)
Definition accepted (msg : Raw.t) : bool :=
  succeeds (Utf8.decode (orEmpty (Raw.content msg)))
  && succeeds (Utf8.decode (orEmpty (Raw.sender_name msg))).

(** Both fields of the record decode, the sender name to [sender]. *)
Definition keptUnder (sender : jsstring) (msg : Raw.t) : bool :=
  match Utf8.decode (orEmpty (Raw.content msg)),
        Utf8.decode (orEmpty (Raw.sender_name msg)) with
  | Returned _, Returned decodedSenderName => jsstring_eqb decodedSenderName sender
  | _, _ => false
  end.

(** The message that a record whose two fields decode is turned into. *)
Definition canonical (msg : Raw.t) : list Message :=
  match Utf8.decode (orEmpty (Raw.content msg)),
        Utf8.decode (orEmpty (Raw.sender_name msg)) with
  | Returned decodedContent, Returned decodedSenderName =>
      [spread msg decodedContent decodedSenderName]
  | _, _ => []
  end.

(** The sender name of the record does not decode to a name that every
    object inherits. *)
Definition plainSender (msg : Raw.t) : bool :=
  match Utf8.decode (orEmpty (Raw.sender_name msg)) with
  | Returned decodedSenderName => negb (Obj.inherited decodedSenderName)
  | Thrown _ => true
  end.

(** The [try] block completes on the record: both fields decode and
    the decoded sender name is not a name that every object inherits. *)
Definition stored (msg : Raw.t) : bool :=
  match Utf8.decode (orEmpty (Raw.content msg)),
        Utf8.decode (orEmpty (Raw.sender_name msg)) with
  | Returned _, Returned decodedSenderName => negb (Obj.inherited decodedSenderName)
  | _, _ => false
  end.

(** The message that the loop stores for a record, if it stores one. *)
Definition storedMessage (msg : Raw.t) : list Message :=
  if stored msg then canonical msg else [].

(** The loop stores the record, under [sender]. *)
Definition storedUnder (sender : jsstring) (msg : Raw.t) : bool :=
  keptUnder sender msg && negb (Obj.inherited sender).

(** The messages that the loop stores under [sender], in input order. *)
Definition storedSequence (sender : jsstring) (messages : list Raw.t) : list Message :=
  filter (fun m => jsstring_eqb (sender_name m) sender) (flat_map storedMessage messages).

(** No own key of the object is a name that every object inherits. *)
Definition noInheritedKeys {V} (o : Obj.t V) : Prop :=
  Forall (fun k => Obj.inherited k = false) (map fst o).

(** [a] occurs in [l] at a position before an occurrence of [b]. *)
Definition Before {A} (l : list A) (a b : A) : Prop :=
  exists l1 l2 l3, l = l1 ++ a :: l2 ++ b :: l3.

(** [s] does not begin with white space; the empty string does not. *)
Definition startsClean (s : jsstring) : Prop :=
  match s with
  | [] => True
  | c :: _ => isWhiteSpace c = false
  end.

(** The substrings that [filterMessages] bans, in lower case. *)
Definition bannedSubstrings : list jsstring :=
  [str "liked a message"; str "attachment"; str "like"].

(** The first occurrence of [a] in [l] comes before the first
    occurrence of [b]. *)
Definition firstSeenBefore (l : list jsstring) (a b : jsstring) : Prop :=
  a <> b /\ exists l1 l2, l = l1 ++ a :: l2 /\ ~ In b l1 /\ In b l2.

(** The order of two own keys of an object whose keys were assigned in
    the order of [assigned]: array indices first, by value, then the
    other keys as first assigned. *)
Definition ownKeyBefore (assigned : list jsstring) (a b : jsstring) : Prop :=
  match Obj.arrayIndex a, Obj.arrayIndex b with
  | Some i, Some j => i < j
  | Some _, None => True
  | None, Some _ => False
  | None, None => firstSeenBefore assigned a b
  end.

(** The test of [filterMessages] as a test of the trimmed content. *)
Definition keepContent (trimmed : jsstring) : bool :=
  keepMessage {| sender_name := []; content := trimmed;
                 timestamp_ms := None; others := [] |}.

(** [s] contains a backslash, the letter u and four hexadecimal digits
    in a row. *)
Definition hasEscape (s : jsstring) : Prop :=
  exists before h1 h2 h3 h4 after,
    s = before ++ backslash :: letter_u :: h1 :: h2 :: h3 :: h4 :: after
    /\ Forall (fun h => In h (str "0123456789abcdefABCDEF")) [h1; h2; h3; h4].

(** ** Sample records *)

Definition rawMessage (sender content : jsstring) (t : option Z) : Raw.t :=
  {| Raw.sender_name := Some sender;
     Raw.content := Some content;
     Raw.timestamp_ms := t;
     Raw.others := [] |}.

Definition message (sender content : jsstring) (t : option Z) : Message :=
  {| sender_name := sender; content := content; timestamp_ms := t; others := [] |}.

(** The one-character string U+00E9 (e with acute accent), as
    [JSON.parse] yields it for a correctly encoded export. *)
Definition e_acute : jsstring := [0xE9].

(** The six characters of a literal escape of the letter A: a
    backslash, the letter u and the digits 0041. *)
Definition escaped_A : jsstring := backslash :: str "u0041".

Definition firstMessage : Message := message (str "A") (str "first") (Some 100).
Definition secondMessage : Message := message (str "B") (str "second") (Some 200).

(** A message sent at the epoch: its timestamp is present and is 0. *)
Definition epochMessage : Message := message (str "A") (str "hi") (Some 0).

(** The content "hi" followed by a no-break space (U+00A0), which is
    white space for [trim] and is not ASCII. *)
Definition hi_nbsp : jsstring := str "hi" ++ [0xA0].

(** A mapping with one sender and that one message. *)
Definition nbspUpload : UserMessages := [(str "A", [message (str "A") hi_nbsp None])].

(** A grinning face (U+1F600) as its two surrogate code units. *)
Definition grinningFace : jsstring := [0xD83D; 0xDE00].

(** ** The selections the page shows (lines 314-316) *)

Definition latestMessages (data : option UserMessages) : list Message :=
  getLatestMessages (allMessages data) 4.

Definition earliestMessages (data : option UserMessages) : list Message :=
  getEarliestMessages (allMessages data) 4.

(** ** Notions used in the further statements *)

(** The message a record becomes when decoding changes neither field. *)
Definition unchanged (msg : Raw.t) : Message :=
  spread msg (orEmpty (Raw.content msg)) (orEmpty (Raw.sender_name msg)).

(** How many times [s] occurs in [l]. *)
Definition occurrences (s : jsstring) (l : list jsstring) : Z :=
  Z.of_nat (length (filter (jsstring_eqb s) l)).

Definition sumZ (l : list Z) : Z := fold_right Z.add 0 l.

(** The lower-case hexadecimal digit of a value from 0 to 15. *)
Definition hexChar (d : Z) : Z := if d <? 10 then 48 + d else 87 + d.

(** A code unit written as an escape: a backslash, the letter u and
    its four hexadecimal digits. *)
Definition escapeUnit (n : Z) : jsstring :=
  [backslash; letter_u;
   hexChar (n / 4096); hexChar (n / 256 mod 16); hexChar (n / 16 mod 16);
   hexChar (n mod 16)].

(** A string with every code unit written as an escape. *)
Definition escapeAll (s : jsstring) : jsstring := flat_map escapeUnit s.

(** Two messages sent at the same instant. *)
Definition noonMessage : Message := message (str "A") (str "lunch?") (Some 1200).
Definition noonReply : Message := message (str "B") (str "yes") (Some 1200).

(** The counting step of [getTopMessages] as a function of the content
    alone. *)
Definition countContent (messageCounts : Obj.t Count) (c : jsstring) : Obj.t Count :=
  countMessage messageCounts
    {| sender_name := []; content := c; timestamp_ms := None; others := [] |}.

(** How many times [s] occurs in [l], as a natural number. *)
Definition times (s : jsstring) (l : list jsstring) : nat :=
  length (filter (jsstring_eqb s) l).

(** What [messageCounts] holds under a content counted [n] times:
    nothing under [__proto__], the text of the function and [n] times
    "1" under the name of an inherited method, the number [n] under any
    other content. *)
Definition countAfter (c : jsstring) (n : nat) : option Count :=
  match n with
  | O => None
  | S _ =>
      if jsstring_eqb c Obj.proto then None
      else if Obj.inheritedMethod c then Some (FunctionText c n)
      else Some (Num (Z.of_nat n))
  end.

(** The number held by a count, 0 for a count that is not a number. *)
Definition numberOf (v : Count) : Z :=
  match v with
  | Num n => n
  | FunctionText _ _ => 0
  end.

(** * Properties *)

(** ** Strings and dictionaries *)

Lemma jsstring_eqb_eq (a b : jsstring) : jsstring_eqb a b = true <-> a = b.
Proof.
  revert b; induction a as [|x a IH]; intros [|y b]; simpl; split; intro H;
    try reflexivity; try discriminate.
  - apply andb_true_iff in H as [Hx Hab].
    apply Z.eqb_eq in Hx. apply IH in Hab. congruence.
  - injection H as -> ->. rewrite Z.eqb_refl. simpl. now apply IH.
Qed.

Lemma jsstring_eqb_refl (a : jsstring) : jsstring_eqb a a = true.
Proof. now apply jsstring_eqb_eq. Qed.

Lemma jsstring_eqb_neq (a b : jsstring) : jsstring_eqb a b = false <-> a <> b.
Proof.
  split.
  - intros H E. apply jsstring_eqb_eq in E. congruence.
  - intro H. destruct (jsstring_eqb a b) eqn:E; [|reflexivity].
    apply jsstring_eqb_eq in E. contradiction.
Qed.

Module ObjFacts.
Section Facts.
Context {V : Type}.
Implicit Types (o : Obj.t V) (k : jsstring) (v : V).

Lemma get_set_same o k v : Obj.get (Obj.set o k v) k = Some v.
Proof.
  induction o as [|[k' v'] o IH]; simpl.
  - now rewrite jsstring_eqb_refl.
  - destruct (jsstring_eqb k' k) eqn:E; simpl; now rewrite E.
Qed.

Lemma get_set_other o k k' v : k <> k' -> Obj.get (Obj.set o k v) k' = Obj.get o k'.
Proof.
  intro Hne. induction o as [|[k0 v0] o IH]; simpl.
  - apply jsstring_eqb_neq in Hne. now rewrite Hne.
  - destruct (jsstring_eqb k0 k) eqn:E; simpl.
    + apply jsstring_eqb_eq in E. subst k0.
      apply jsstring_eqb_neq in Hne. now rewrite Hne.
    + now rewrite IH.
Qed.

Lemma set_set o k v v' : Obj.set (Obj.set o k v) k v' = Obj.set o k v'.
Proof.
  induction o as [|[k0 v0] o IH]; simpl.
  - now rewrite jsstring_eqb_refl.
  - destruct (jsstring_eqb k0 k) eqn:E; simpl; rewrite E; [reflexivity|].
    now rewrite IH.
Qed.

Lemma get_In_keys o k v : Obj.get o k = Some v -> In k (map fst o).
Proof.
  induction o as [|[k0 v0] o IH]; simpl; [discriminate|].
  destruct (jsstring_eqb k0 k) eqn:E.
  - apply jsstring_eqb_eq in E. now left.
  - intro H. right. now apply IH.
Qed.

Lemma In_keys_get o k : In k (map fst o) -> exists v, Obj.get o k = Some v.
Proof.
  induction o as [|[k0 v0] o IH]; simpl; [contradiction|].
  intros [-> | H].
  - rewrite jsstring_eqb_refl. now exists v0.
  - destruct (jsstring_eqb k0 k); [now exists v0 | now apply IH].
Qed.

Lemma get_None_keys o k : Obj.get o k = None -> ~ In k (map fst o).
Proof.
  intros H Hin. apply In_keys_get in Hin as [v Hv]. congruence.
Qed.

(** Assigning to an existing property leaves the keys as they are;
    assigning to a new one appends it. *)
Lemma keys_set_present o k v :
  In k (map fst o) -> map fst (Obj.set o k v) = map fst o.
Proof.
  induction o as [|[k0 v0] o IH]; simpl; [contradiction|].
  intros H. destruct (jsstring_eqb k0 k) eqn:E; simpl; [reflexivity|].
  f_equal. apply IH. destruct H as [-> | H]; [|exact H].
  rewrite jsstring_eqb_refl in E. discriminate.
Qed.

Lemma set_absent o k v : ~ In k (map fst o) -> Obj.set o k v = o ++ [(k, v)].
Proof.
  induction o as [|[k0 v0] o IH]; simpl; intro H; [reflexivity|].
  destruct (jsstring_eqb k0 k) eqn:E.
  - apply jsstring_eqb_eq in E. tauto.
  - f_equal. apply IH. tauto.
Qed.
End Facts.
End ObjFacts.

Lemma set_In {V} (o : Obj.t V) (k : jsstring) (v : V) (e : jsstring * V) :
  In e (Obj.set o k v) -> e = (k, v) \/ In e o.
Proof.
  induction o as [|[k0 v0] o IH]; simpl.
  - intros [<- | []]. now left.
  - destruct (jsstring_eqb k0 k) eqn:E; simpl.
    + apply jsstring_eqb_eq in E. subst k0. intros [<- | H]; auto.
    + intros [<- | H]; auto. apply IH in H as [H | H]; auto.
Qed.

Lemma keys_set_NoDup {V} (o : Obj.t V) (k : jsstring) (v : V) :
  NoDup (map fst o) -> NoDup (map fst (Obj.set o k v)).
Proof.
  intro Hnd. destruct (in_dec (list_eq_dec Z.eq_dec) k (map fst o)) as [Hin | Hout].
  - now rewrite ObjFacts.keys_set_present.
  - rewrite ObjFacts.set_absent by exact Hout. rewrite map_app. simpl.
    apply NoDup_app; [exact Hnd | constructor; [intros [] | constructor] |].
    intros x Hx [<- | []]. contradiction.
Qed.

Lemma get_In {V} (o : Obj.t V) (k : jsstring) (v : V) :
  Obj.get o k = Some v -> In (k, v) o.
Proof.
  induction o as [|[k0 v0] o IH]; simpl; [discriminate|].
  destruct (jsstring_eqb k0 k) eqn:E.
  - apply jsstring_eqb_eq in E. subst k0. intro H. injection H as ->. now left.
  - intro H. right. now apply IH.
Qed.

Lemma In_get {V} (o : Obj.t V) (k : jsstring) (v : V) :
  NoDup (map fst o) -> In (k, v) o -> Obj.get o k = Some v.
Proof.
  induction o as [|[k0 v0] o IH]; simpl; [contradiction|].
  intros Hnd [E | H].
  - injection E as -> ->. now rewrite jsstring_eqb_refl.
  - inversion Hnd as [|? ? Hnotin Hnd']; subst.
    destruct (jsstring_eqb k0 k) eqn:E; [|now apply IH].
    apply jsstring_eqb_eq in E. subst k0.
    exfalso. apply Hnotin. now apply (in_map fst) in H.
Qed.

(** ** The normalisation loop *)

Lemma totalMessages_set (um : UserMessages) k v :
  (totalMessages (Obj.set um k v) + length (seqAt um k) = totalMessages um + length v)%nat.
Proof.
  unfold totalMessages, seqAt.
  induction um as [|[k0 v0] um IH]; simpl; [lia|].
  destruct (jsstring_eqb k0 k) eqn:E; simpl; [lia|].
  destruct (Obj.get um k); simpl in *; lia.
Qed.

Lemma totalMessages_push (um : UserMessages) k m :
  totalMessages (push um k m) = S (totalMessages um).
Proof.
  unfold push. pose proof (totalMessages_set um k (seqAt um k ++ [m])) as H.
  rewrite length_app in H. simpl in H. lia.
Qed.

Lemma seqAt_push (um : UserMessages) k m k' :
  seqAt (push um k m) k' = seqAt um k' ++ (if jsstring_eqb k k' then [m] else []).
Proof.
  unfold push. destruct (jsstring_eqb k k') eqn:E.
  - apply jsstring_eqb_eq in E. subst k'.
    unfold seqAt at 1. now rewrite ObjFacts.get_set_same.
  - apply jsstring_eqb_neq in E.
    unfold seqAt at 1. rewrite ObjFacts.get_set_other by exact E.
    fold (seqAt um k'). now rewrite app_nil_r.
Qed.

Lemma lookup_own {V} (o : Obj.t V) (k : jsstring) (v : V) :
  Obj.get o k = Some v -> Obj.lookup o k = Obj.Own v.
Proof. unfold Obj.lookup. now intros ->. Qed.

Lemma lookup_absent {V} (o : Obj.t V) (k : jsstring) :
  Obj.get o k = None ->
  Obj.lookup o k = if Obj.inherited k then Obj.Inherited else Obj.Undefined.
Proof. unfold Obj.lookup. now intros ->. Qed.

Lemma noInheritedKeys_get {V} (o : Obj.t V) (k : jsstring) :
  noInheritedKeys o -> Obj.inherited k = true -> Obj.get o k = None.
Proof.
  intros Hno Hk. destruct (Obj.get o k) as [v|] eqn:G; [|reflexivity].
  apply ObjFacts.get_In_keys in G.
  apply (proj1 (Forall_forall _ _) Hno) in G. congruence.
Qed.

Lemma noInheritedKeys_set {V} (o : Obj.t V) (k : jsstring) (v : V) :
  noInheritedKeys o -> Obj.inherited k = false -> noInheritedKeys (Obj.set o k v).
Proof.
  unfold noInheritedKeys. intros Hno Hk.
  induction o as [|[k0 v0] o IH]; simpl.
  - now constructor.
  - inversion Hno; subst. destruct (jsstring_eqb k0 k); simpl; constructor; auto.
Qed.

(** When both fields decode and the sender name is not an inherited
    one, the [try] block stores the message. *)
Lemma tryBlock_push um msg content senderName decodedContent decodedSenderName :
  Utf8.decode content = Returned decodedContent ->
  Utf8.decode senderName = Returned decodedSenderName ->
  Obj.inherited decodedSenderName = false ->
  tryBlock um msg content senderName
  = Returned (push um decodedSenderName (spread msg decodedContent decodedSenderName)).
Proof.
  intros Hc Hs Hplain. unfold tryBlock. rewrite Hc, Hs. simpl.
  unfold push, seqAt.
  destruct (Obj.get um decodedSenderName) as [array|] eqn:G.
  - now rewrite !(lookup_own _ _ _ G).
  - rewrite (lookup_absent _ _ G), Hplain.
    rewrite (lookup_own _ _ _ (ObjFacts.get_set_same um decodedSenderName [])).
    now rewrite ObjFacts.set_set.
Qed.

(** Under an inherited sender name the [try] block throws before any
    change to the mapping. *)
Lemma tryBlock_inherited um msg content senderName decodedContent decodedSenderName :
  Utf8.decode content = Returned decodedContent ->
  Utf8.decode senderName = Returned decodedSenderName ->
  Obj.inherited decodedSenderName = true ->
  Obj.get um decodedSenderName = None ->
  tryBlock um msg content senderName
  = Thrown (TypeError "userMessages[decodedSenderName].push is not a function").
Proof.
  intros Hc Hs Hin G. unfold tryBlock. rewrite Hc, Hs. simpl.
  rewrite (lookup_absent _ _ G), Hin. now rewrite (lookup_absent _ _ G), Hin.
Qed.

(** The loop body never throws: it stores the message of a record on
    which the [try] block completes and leaves the mapping as it is
    otherwise. *)
Lemma forEachBody_spec um msg :
  noInheritedKeys um ->
  forEachBody um msg
  = Returned (match storedMessage msg with
              | m :: _ => push um (sender_name m) m
              | [] => um
              end).
Proof.
  intro Hno. unfold forEachBody, storedMessage, stored, canonical.
  destruct (Utf8.decode (orEmpty (Raw.content msg))) as [dc|e] eqn:Hc.
  - destruct (Utf8.decode (orEmpty (Raw.sender_name msg))) as [ds|e] eqn:Hs.
    + destruct (Obj.inherited ds) eqn:Hin; simpl.
      * now rewrite (tryBlock_inherited _ _ _ _ _ _ Hc Hs Hin
                       (noInheritedKeys_get _ _ Hno Hin)).
      * now rewrite (tryBlock_push _ _ _ _ _ _ Hc Hs Hin).
    + unfold tryBlock. now rewrite Hc, Hs.
  - unfold tryBlock. now rewrite Hc.
Qed.

Lemma forEachBody_rejected um msg :
  accepted msg = false -> forEachBody um msg = Returned um.
Proof.
  intro H. unfold accepted in H. unfold forEachBody, tryBlock.
  destruct (Utf8.decode (orEmpty (Raw.content msg)));
    destruct (Utf8.decode (orEmpty (Raw.sender_name msg)));
    simpl in H; try discriminate; reflexivity.
Qed.

Lemma canonical_accepted msg :
  length (canonical msg) = if accepted msg then 1%nat else 0%nat.
Proof.
  unfold canonical, accepted.
  destruct (Utf8.decode (orEmpty (Raw.content msg)));
    destruct (Utf8.decode (orEmpty (Raw.sender_name msg))); reflexivity.
Qed.

Lemma stored_accepted msg : stored msg = accepted msg && plainSender msg.
Proof.
  unfold stored, accepted, plainSender.
  destruct (Utf8.decode (orEmpty (Raw.content msg)));
    destruct (Utf8.decode (orEmpty (Raw.sender_name msg))); reflexivity.
Qed.

(** What the loop stores for a record: nothing, or one message whose
    sender name is not an inherited one. *)
Lemma storedMessage_cases msg :
  (stored msg = false /\ storedMessage msg = [])
  \/ exists m,
      stored msg = true /\ storedMessage msg = [m] /\ canonical msg = [m]
      /\ Obj.inherited (sender_name m) = false.
Proof.
  unfold storedMessage, stored, canonical.
  destruct (Utf8.decode (orEmpty (Raw.content msg))) as [dc|];
    [destruct (Utf8.decode (orEmpty (Raw.sender_name msg))) as [ds|]|];
    try (left; split; reflexivity).
  destruct (Obj.inherited ds) eqn:Hin; simpl; [left; now split|].
  right. eexists. repeat split. exact Hin.
Qed.

Lemma forEach_app {A S} (l1 l2 : list A) (f : S -> A -> outcome S) (s : S) :
  forEach (l1 ++ l2) f s = (s' <- forEach l1 f s ;; forEach l2 f s').
Proof.
  revert s; induction l1 as [|x l1 IH]; intro s; simpl; [reflexivity|].
  destruct (f s x) as [s'|e]; simpl; [apply IH | reflexivity].
Qed.

(** The loop, from any mapping without inherited names among its keys:
    it returns, every sender's sequence is extended by the messages
    stored for that sender, in input order, and one message is added
    per record on which the [try] block completes. *)
Lemma forEach_forEachBody (messages : list Raw.t) :
  forall um0,
    noInheritedKeys um0 ->
    exists um,
      forEach messages forEachBody um0 = Returned um
      /\ noInheritedKeys um
      /\ (forall k, seqAt um k = seqAt um0 k ++ storedSequence k messages)
      /\ totalMessages um = (totalMessages um0 + length (filter stored messages))%nat.
Proof.
  induction messages as [|msg messages IH]; intros um0 Hno; simpl.
  - exists um0. split; [reflexivity|]. split; [exact Hno|]. split; [|lia].
    intro k. unfold storedSequence. simpl. now rewrite app_nil_r.
  - rewrite (forEachBody_spec _ _ Hno). simpl.
    destruct (storedMessage_cases msg) as [[Hst Hmsg] | (m & Hst & Hmsg & _ & Hplain)];
      rewrite Hmsg, Hst.
    + destruct (IH um0 Hno) as (um & Hrun & Hno' & Hseq & Htot).
      exists um. split; [exact Hrun|]. split; [exact Hno'|]. split; [|exact Htot].
      intro k. rewrite Hseq. unfold storedSequence. simpl. now rewrite Hmsg.
    + destruct (IH (push um0 (sender_name m) m)) as (um & Hrun & Hno' & Hseq & Htot).
      { now apply noInheritedKeys_set. }
      exists um. split; [exact Hrun|]. split; [exact Hno'|]. split.
      * intro k. rewrite Hseq, seqAt_push, <- app_assoc. f_equal.
        unfold storedSequence. simpl. rewrite Hmsg. simpl.
        now destruct (jsstring_eqb (sender_name m) k).
      * rewrite Htot, totalMessages_push. simpl. lia.
Qed.

Lemma normalize_spec (messages : list Raw.t) :
  exists um,
    normalize messages = Returned um
    /\ (forall k, seqAt um k = storedSequence k messages)
    /\ totalMessages um = length (filter stored messages).
Proof.
  destruct (forEach_forEachBody messages Obj.empty) as (um & Hrun & _ & Hseq & Htot).
  { constructor. }
  exists um. split; [exact Hrun|]. split; [|exact Htot].
  intro k. now rewrite Hseq.
Qed.

Lemma filter_length_le {A} (f : A -> bool) (l : list A) :
  (length (filter f l) <= length l)%nat.
Proof. induction l as [|x l IH]; simpl; [lia|]. destruct (f x); simpl; lia. Qed.

Lemma filter_length_mono {A} (f g : A -> bool) (l : list A) :
  (forall x, f x = true -> g x = true) ->
  (length (filter f l) <= length (filter g l))%nat.
Proof.
  intro H. induction l as [|x l IH]; simpl; [lia|].
  destruct (f x) eqn:F; [rewrite (H x F); simpl; lia|].
  destruct (g x); simpl; lia.
Qed.

Lemma storedSequence_map {B} (f : Message -> B) (g : Raw.t -> B) (k : jsstring) :
  (forall msg dc ds,
      Utf8.decode (orEmpty (Raw.content msg)) = Returned dc ->
      Utf8.decode (orEmpty (Raw.sender_name msg)) = Returned ds ->
      f (spread msg dc ds) = g msg) ->
  forall messages,
    map f (storedSequence k messages) = map g (filter (storedUnder k) messages).
Proof.
  intros Hfg messages. unfold storedSequence.
  induction messages as [|msg messages IH]; simpl; [reflexivity|].
  rewrite filter_app, map_app, IH.
  unfold storedMessage, stored, canonical, storedUnder, keptUnder.
  destruct (Utf8.decode (orEmpty (Raw.content msg))) as [dc|] eqn:Hc; simpl;
    [|reflexivity].
  destruct (Utf8.decode (orEmpty (Raw.sender_name msg))) as [ds|] eqn:Hs; simpl;
    [|reflexivity].
  destruct (jsstring_eqb ds k) eqn:E.
  - apply jsstring_eqb_eq in E. subst k.
    destruct (Obj.inherited ds); simpl; [reflexivity|].
    rewrite jsstring_eqb_refl. simpl. f_equal. now apply Hfg.
  - destruct (Obj.inherited ds); simpl; [reflexivity|]. now rewrite E.
Qed.

(** C1, as stated, fails: a record whose content is the single
    character U+00E9 is not a UTF-8 byte sequence, [utf8.decode] throws,
    the [catch] logs the error and the record is not stored.  The
    mapping built from this one-record upload holds no message. *)
Lemma normalize_drops_undecodable :
  ~ (exists um,
        normalize [rawMessage (str "A") e_acute (Some 100)] = Returned um
        /\ totalMessages um = length [rawMessage (str "A") e_acute (Some 100)]).
Proof.
  intros (um & Hrun & Htotal).
  vm_compute in Hrun. injection Hrun as <-. discriminate Htotal.
Qed.

(** C1, amended: for every list of records the loop returns (nothing is
    thrown); the number of messages in the mapping, over all senders,
    is at most the number of records whose content and sender name both
    decode, hence at most the length of the input, and it is that
    number when no sender name decodes to a name that every object
    inherits. *)
Theorem normalize_total (messages : list Raw.t) :
  exists um,
    normalize messages = Returned um
    /\ (totalMessages um <= length (filter accepted messages))%nat
    /\ (totalMessages um <= length messages)%nat
    /\ (forallb plainSender messages = true ->
        totalMessages um = length (filter accepted messages)).
Proof.
  destruct (normalize_spec messages) as (um & Hrun & _ & Htot).
  assert (Hle : (length (filter stored messages) <= length (filter accepted messages))%nat).
  { apply filter_length_mono. intros msg H.
    rewrite stored_accepted in H. now apply andb_true_iff in H. }
  exists um. split; [exact Hrun|]. rewrite Htot.
  split; [exact Hle|]. split.
  - pose proof (filter_length_le accepted messages). lia.
  - intro Hplain. f_equal. apply filter_ext_in. intros msg Hmsg.
    rewrite stored_accepted.
    rewrite (proj1 (forallb_forall _ _) Hplain msg Hmsg). apply andb_true_r.
Qed.

Lemma normalize_total_witness :
  exists um,
    normalize [rawMessage (str "A") (str "hi") None;
               rawMessage (str "B") e_acute None] = Returned um
    /\ totalMessages um = 1%nat.
Proof.
  destruct (normalize_total [rawMessage (str "A") (str "hi") None;
                             rawMessage (str "B") e_acute None])
    as (um & Hrun & _ & _ & Htotal).
  exists um. split; [exact Hrun|].
  rewrite Htotal; reflexivity.
Defined.

(** C2, as stated, fails: in an upload of three records by the same
    sender, the middle one, whose content does not decode, is not kept
    with its original content: the sender's sequence holds the two
    other messages only. *)
Lemma normalize_no_fallback :
  Utf8.decode e_acute = Thrown (Error "Invalid byte index")
  /\ ~ (exists um m,
          normalize [rawMessage (str "A") (str "one") None;
                     rawMessage (str "A") e_acute None;
                     rawMessage (str "A") (str "two") None] = Returned um
          /\ In m (seqAt um (str "A"))
          /\ content m = e_acute).
Proof.
  split; [reflexivity|].
  intros (um & m & Hrun & Hin & Hcontent).
  vm_compute in Hrun. injection Hrun as <-.
  vm_compute in Hin. destruct Hin as [<- | [<- | []]]; discriminate Hcontent.
Qed.

(** C2, amended: a record on which [utf8.decode] fails for the content
    or for the sender name is dropped, and the rest of the upload is
    unaffected: the mapping is the one built from the upload without
    that record. *)
Theorem normalize_skips_rejected (before after : list Raw.t) (msg : Raw.t) :
  accepted msg = false ->
  normalize (before ++ msg :: after) = normalize (before ++ after).
Proof.
  intro Hrejected. unfold normalize.
  rewrite !forEach_app. simpl.
  destruct (forEach before forEachBody Obj.empty) as [um|e]; simpl; [|reflexivity].
  now rewrite (forEachBody_rejected um msg Hrejected).
Qed.

Lemma normalize_skips_rejected_witness :
  accepted (rawMessage (str "A") e_acute None) = false
  /\ normalize ([rawMessage (str "A") (str "one") None]
                ++ rawMessage (str "A") e_acute None
                   :: [rawMessage (str "B") (str "two") None])
     = normalize ([rawMessage (str "A") (str "one") None]
                  ++ [rawMessage (str "B") (str "two") None]).
Proof.
  split; [reflexivity|].
  apply (normalize_skips_rejected
           [rawMessage (str "A") (str "one") None]
           [rawMessage (str "B") (str "two") None]
           (rawMessage (str "A") e_acute None)).
  reflexivity.
Defined.

(** C3, as stated, fails: the loop calls [utf8.decode] and not
    [decodeUnicode].  A content holding the six characters of a literal
    escape of the letter A is stored as it is, while [decodeUnicode]
    resolves it to the letter. *)
Lemma normalize_keeps_escape :
  exists um m,
    normalize [rawMessage (str "A") escaped_A None] = Returned um
    /\ seqAt um (str "A") = [m]
    /\ content m = escaped_A
    /\ decodeUnicode escaped_A = Returned (str "A")
    /\ Returned (content m) <> decodeUnicode escaped_A.
Proof.
  eexists. eexists. split; [vm_compute; reflexivity|].
  split; [vm_compute; reflexivity|].
  split; [reflexivity|]. split; [reflexivity|].
  vm_compute. discriminate.
Qed.

(** C3, amended: the content and the sender name of every stored
    message are what the UTF-8 decoding pass alone ([utf8.decode])
    returns for the raw field, an absent field counting as the empty
    string; a literal escape in a field is not resolved.  For every
    sender, the stored sequence matches the stored records one by one. *)
Theorem normalize_decodes_once (messages : list Raw.t) :
  exists um,
    normalize messages = Returned um
    /\ forall k,
        map (fun m => (Returned (content m), Returned (sender_name m))) (seqAt um k)
        = map (fun msg => (Utf8.decode (orEmpty (Raw.content msg)),
                           Utf8.decode (orEmpty (Raw.sender_name msg))))
              (filter (storedUnder k) messages).
Proof.
  destruct (normalize_spec messages) as (um & Hrun & Hseq & _).
  exists um. split; [exact Hrun|].
  intro k. rewrite Hseq. apply storedSequence_map.
  intros msg dc ds Hc Hs. simpl. now rewrite Hc, Hs.
Qed.

(** C10: for every record that the loop keeps, the fields other than
    [content] and [sender_name], [timestamp_ms] among them, are those of
    the record: for every sender, the stored sequence and the stored
    records of that sender agree on these fields, one by one. *)
Theorem normalize_frame (messages : list Raw.t) :
  exists um,
    normalize messages = Returned um
    /\ forall k,
        map (fun m => (timestamp_ms m, others m)) (seqAt um k)
        = map (fun msg => (Raw.timestamp_ms msg, Raw.others msg))
              (filter (storedUnder k) messages).
Proof.
  destruct (normalize_spec messages) as (um & Hrun & Hseq & _).
  exists um. split; [exact Hrun|].
  intro k. rewrite Hseq. apply storedSequence_map. reflexivity.
Qed.

(** ** Order of occurrence *)

Section BeforeFacts.
Context {A : Type}.
Implicit Types (l : list A) (a b x : A).

Lemma Before_cons l x a b :
  Before (x :: l) a b <-> (x = a /\ In b l) \/ Before l a b.
Proof.
  split.
  - intros (l1 & l2 & l3 & E). destruct l1 as [|y l1]; simpl in E.
    + injection E as -> ->. left. split; [reflexivity|].
      apply in_or_app. right. now left.
    + injection E as -> ->. right. now exists l1, l2, l3.
  - intros [[-> Hb] | (l1 & l2 & l3 & ->)].
    + apply in_split in Hb as (l2 & l3 & ->). now exists [], l2, l3.
    + now exists (x :: l1), l2, l3.
Qed.

Lemma Before_nil a b : ~ Before (@nil A) a b.
Proof. intros (l1 & l2 & l3 & E). destruct l1; discriminate E. Qed.

Lemma Before_In l a b : Before l a b -> In a l /\ In b l.
Proof.
  intros (l1 & l2 & l3 & ->). split.
  - apply in_or_app. right. now left.
  - apply in_or_app. right. right. apply in_or_app. right. now left.
Qed.

Lemma Before_app l r a b :
  Before (l ++ r) a b <-> Before l a b \/ (In a l /\ In b r) \/ Before r a b.
Proof.
  induction l as [|x l IH]; simpl.
  - split; [intro H; right; now right|].
    intros [H | [[[] _] | H]]; [now apply Before_nil in H | exact H].
  - rewrite !Before_cons, IH, in_app_iff. tauto.
Qed.

Lemma Before_firstn n l a b : Before (firstn n l) a b -> Before l a b.
Proof.
  intro H. rewrite <- (firstn_skipn n l). apply Before_app. now left.
Qed.

Lemma Before_filter (f : A -> bool) l a b :
  Before (filter f l) a b -> Before l a b.
Proof.
  induction l as [|x l IH]; simpl; [intro H; now apply Before_nil in H|].
  destruct (f x).
  - rewrite !Before_cons. intros [[-> H] | H].
    + left. split; [reflexivity|]. now apply filter_In in H.
    + right. now apply IH.
  - intro H. apply Before_cons. right. now apply IH.
Qed.

Lemma Before_map {B} (f : A -> B) l a b :
  Before l a b -> Before (map f l) (f a) (f b).
Proof.
  intros (l1 & l2 & l3 & ->).
  exists (map f l1), (map f l2), (map f l3).
  rewrite map_app. simpl. now rewrite map_app.
Qed.

Lemma nth_error_Before l (i j : nat) a b :
  (i < j)%nat -> nth_error l i = Some a -> nth_error l j = Some b -> Before l a b.
Proof.
  revert i j; induction l as [|x l IH]; intros i j Hij Hi Hj.
  - destruct i; discriminate Hi.
  - apply Before_cons. destruct j as [|j]; [lia|]. simpl in Hj.
    destruct i as [|i]; simpl in Hi.
    + injection Hi as ->. left. split; [reflexivity|].
      now apply nth_error_In in Hj.
    + right. apply (IH i j); [lia | exact Hi | exact Hj].
Qed.
End BeforeFacts.

(** ** [sort] *)

Section SortFacts.
Context {A : Type}.
Variable compareFn : A -> A -> Z.
Variable key : A -> Z.
Hypothesis compareFn_key : forall a b, compareFn a b <= 0 <-> key a <= key b.

Lemma insertSorted_Permutation x l :
  Permutation (insertSorted compareFn x l) (x :: l).
Proof.
  induction l as [|y l IH]; simpl; [reflexivity|].
  destruct (compareFn x y <=? 0); [reflexivity|].
  rewrite IH. apply perm_swap.
Qed.

Lemma sort_Permutation l : Permutation (sort compareFn l) l.
Proof.
  induction l as [|x l IH]; simpl; [reflexivity|].
  rewrite insertSorted_Permutation. now constructor.
Qed.

Lemma sort_In l x : In x (sort compareFn l) <-> In x l.
Proof.
  split; apply Permutation_in;
    [apply sort_Permutation | apply Permutation_sym, sort_Permutation].
Qed.

Lemma sort_length l : length (sort compareFn l) = length l.
Proof. apply Permutation_length, sort_Permutation. Qed.

Lemma insertSorted_sorted x l :
  StronglySorted (fun a b => key a <= key b) l ->
  StronglySorted (fun a b => key a <= key b) (insertSorted compareFn x l).
Proof.
  induction 1 as [|y l Hl IH Hy]; simpl.
  - constructor; constructor.
  - destruct (compareFn x y <=? 0) eqn:E.
    + apply Z.leb_le, compareFn_key in E.
      constructor; [now constructor|].
      constructor; [exact E|].
      eapply Forall_impl; [|exact Hy]. simpl. intros; lia.
    + apply Z.leb_gt in E.
      assert (Hyx : key y <= key x).
      { destruct (Z.le_gt_cases (key x) (key y)) as [H|H]; [|lia].
        apply compareFn_key in H. lia. }
      constructor; [exact IH|].
      apply Forall_forall. intros z Hz.
      apply (Permutation_in _ (insertSorted_Permutation x l)) in Hz.
      destruct Hz as [<- | Hz]; [exact Hyx|].
      now apply (proj1 (Forall_forall _ _) Hy).
Qed.

Lemma sort_sorted l : StronglySorted (fun a b => key a <= key b) (sort compareFn l).
Proof.
  induction l as [|x l IH]; simpl; [constructor | now apply insertSorted_sorted].
Qed.

Lemma sorted_Before l a b :
  StronglySorted (fun a b => key a <= key b) l -> Before l a b -> key a <= key b.
Proof.
  induction 1 as [|x l Hl IH Hx]; intro H.
  - now apply Before_nil in H.
  - apply Before_cons in H as [[-> Hb] | H]; [|now apply IH].
    now apply (proj1 (Forall_forall _ _) Hx).
Qed.

(** Elements that the comparison does not separate keep the order
    they had in the input. *)
Lemma insertSorted_Before x l a b :
  Before (insertSorted compareFn x l) a b ->
  Before l a b \/ (a = x /\ In b l) \/ (b = x /\ key a < key x).
Proof.
  induction l as [|y l IH]; simpl.
  - intro H. apply Before_cons in H as [[_ []] | H]. now apply Before_nil in H.
  - destruct (compareFn x y <=? 0) eqn:E.
    + intro H. apply Before_cons in H as [[-> Hb] | H]; auto.
    + apply Z.leb_gt in E.
      assert (Hyx : key y < key x).
      { destruct (Z.le_gt_cases (key x) (key y)) as [H|H]; [|lia].
        apply compareFn_key in H. lia. }
      intro H. apply Before_cons in H as [[-> Hb] | H].
      * apply (Permutation_in _ (insertSorted_Permutation x l)) in Hb.
        destruct Hb as [<- | Hb]; [right; right; now split|].
        left. apply Before_cons. left. now split.
      * destruct (IH H) as [H' | [[-> Hb] | H']].
        -- left. apply Before_cons. now right.
        -- right. left. split; [reflexivity | now right].
        -- right. now right.
Qed.

Lemma sort_stable l a b :
  Before (sort compareFn l) a b -> key b <= key a -> Before l a b.
Proof.
  revert a b; induction l as [|x l IH]; simpl; intros a b H Hkey.
  - now apply Before_nil in H.
  - apply insertSorted_Before in H as [H | [[-> Hb] | [-> Hlt]]].
    + apply Before_cons. right. now apply IH.
    + apply Before_cons. left. split; [reflexivity|]. exact (proj1 (sort_In _ _) Hb).
    + lia.
Qed.
End SortFacts.

(** [sort] consults the comparison on the elements of the array only. *)
Lemma insertSorted_ext_in {A} (f g : A -> A -> Z) (x : A) (l : list A) :
  (forall y, In y l -> f x y = g x y) ->
  insertSorted f x l = insertSorted g x l.
Proof.
  induction l as [|y l IH]; intro H; simpl; [reflexivity|].
  rewrite (H y) by now left.
  destruct (g x y <=? 0); [reflexivity|].
  f_equal. apply IH. intros z Hz. apply H. now right.
Qed.

Lemma sort_ext_in {A} (f g : A -> A -> Z) (l : list A) :
  (forall x y, In x l -> In y l -> f x y = g x y) ->
  sort f l = sort g l.
Proof.
  induction l as [|x l IH]; intro H; simpl; [reflexivity|].
  rewrite IH by (intros a b Ha Hb; apply H; now right).
  apply insertSorted_ext_in. intros y Hy.
  apply (proj1 (sort_In _ _ _)) in Hy. apply H; [now left | now right].
Qed.

(** ** [slice] *)

Lemma relativeIndex_nonneg (len i : Z) :
  0 <= i -> relativeIndex len i = Z.min i len.
Proof.
  intro H. unfold relativeIndex.
  now replace (i <? 0) with false by (symmetry; apply Z.ltb_ge; lia).
Qed.

Lemma relativeIndex_neg (len i : Z) :
  i < 0 -> relativeIndex len i = Z.max (len + i) 0.
Proof.
  intro H. unfold relativeIndex.
  now replace (i <? 0) with true by (symmetry; apply Z.ltb_lt; lia).
Qed.

Lemma slice_prefix {A} (l : list A) (n : Z) :
  0 <= n -> slice l 0 (Some n) = firstn (Z.to_nat n) l.
Proof.
  intro Hn. unfold slice.
  rewrite (relativeIndex_nonneg _ 0), (relativeIndex_nonneg _ n) by lia.
  rewrite (Z.min_l 0) by lia. simpl. rewrite Z.sub_0_r.
  destruct (Z.le_gt_cases n (Z.of_nat (length l))) as [H|H].
  - now rewrite Z.min_l by lia.
  - rewrite Z.min_r by lia. rewrite Nat2Z.id.
    rewrite firstn_all. symmetry. apply firstn_all2. lia.
Qed.

Lemma slice_negative_end {A} (l : list A) (n : Z) :
  n < 0 -> slice l 0 (Some n) = firstn (length l - Z.to_nat (- n)) l.
Proof.
  intro Hn. unfold slice.
  rewrite (relativeIndex_nonneg _ 0), (relativeIndex_neg _ n) by lia.
  rewrite (Z.min_l 0) by lia. simpl. rewrite Z.sub_0_r.
  f_equal. lia.
Qed.

Lemma slice_positive_start {A} (l : list A) (n : Z) :
  0 < n -> slice l n None = skipn (Z.to_nat n) l.
Proof.
  intro Hn. unfold slice.
  rewrite (relativeIndex_nonneg _ n) by lia.
  destruct (Z.le_gt_cases n (Z.of_nat (length l))) as [H|H].
  - rewrite Z.min_l by lia. apply firstn_all2. rewrite length_skipn. lia.
  - rewrite Z.min_r by lia. rewrite Nat2Z.id, skipn_all. simpl.
    rewrite firstn_nil. symmetry. apply skipn_all2. lia.
Qed.

(** ** The chronological selectors *)

(** What [getSortedMessagesAscending] returns: the messages whose
    timestamp is truthy, in ascending order of timestamp, messages with
    the same timestamp in input order. *)
Lemma getSortedMessagesAscending_spec (messages : list Message) :
  Permutation (getSortedMessagesAscending messages) (filter truthyTimestamp messages)
  /\ StronglySorted (fun a b => timestampOf a <= timestampOf b)
       (getSortedMessagesAscending messages)
  /\ forall a b,
      Before (getSortedMessagesAscending messages) a b ->
      timestampOf a = timestampOf b ->
      Before messages a b.
Proof.
  unfold getSortedMessagesAscending.
  assert (Hkey : forall a b : Message,
             timestampOf a - timestampOf b <= 0 <-> timestampOf a <= timestampOf b)
    by (intros; lia).
  split; [apply sort_Permutation|].
  split; [apply (sort_sorted _ timestampOf Hkey)|].
  intros a b H E. eapply Before_filter.
  apply (sort_stable _ timestampOf Hkey); [exact H | lia].
Qed.

(** C4, as stated, fails: with two timestamped messages and a count
    of -1, [slice(0, -1)] keeps the first and [slice(1)] keeps the
    second. *)
Lemma selectors_negative_count_not_empty :
  getEarliestMessages [firstMessage; secondMessage] (-1) = [firstMessage]
  /\ getLatestMessages [firstMessage; secondMessage] (-1) = [secondMessage]
  /\ ~ (forall n, n <= 0 ->
          getEarliestMessages [firstMessage; secondMessage] n = []
          /\ getLatestMessages [firstMessage; secondMessage] n = []).
Proof.
  split; [reflexivity|]. split; [reflexivity|].
  intro H. destruct (H (-1)) as [He _]; [lia|]. discriminate He.
Qed.

(** C4, amended: for every message list, [getEarliestMessages] with a
    count of 0 returns the empty sequence; with a negative count n it
    returns the sorted sequence without its last |n| messages, and
    [getLatestMessages] returns the sorted sequence without its first
    |n| messages. *)
Theorem selectors_nonpositive_count (messages : list Message) :
  getEarliestMessages messages 0 = []
  /\ forall n, n < 0 ->
       getEarliestMessages messages n
       = firstn (length (getSortedMessagesAscending messages) - Z.to_nat (- n))
                (getSortedMessagesAscending messages)
       /\ getLatestMessages messages n
          = skipn (Z.to_nat (- n)) (getSortedMessagesAscending messages).
Proof.
  split.
  - unfold getEarliestMessages. now rewrite slice_prefix by lia.
  - intros n Hn. unfold getEarliestMessages, getLatestMessages. split.
    + now apply slice_negative_end.
    + apply slice_positive_start. lia.
Qed.

Lemma selectors_nonpositive_count_witness :
  -1 < 0
  /\ getEarliestMessages [firstMessage; secondMessage] (-1)
     = firstn (length (getSortedMessagesAscending [firstMessage; secondMessage])
               - Z.to_nat (- (-1)))
              (getSortedMessagesAscending [firstMessage; secondMessage])
  /\ getLatestMessages [firstMessage; secondMessage] (-1)
     = skipn (Z.to_nat (- (-1))) (getSortedMessagesAscending [firstMessage; secondMessage]).
Proof.
  split; [reflexivity|].
  apply (proj2 (selectors_nonpositive_count [firstMessage; secondMessage]) (-1)).
  reflexivity.
Defined.

(** C5: the filter of [getSortedMessagesAscending] tests the
    truthiness of [timestamp_ms], so a message whose timestamp is
    present and is 0 is not a candidate: it is in neither selection. *)
Lemma getSortedMessagesAscending_drops_timestamp_zero :
  timestamp_ms epochMessage = Some 0
  /\ getSortedMessagesAscending [epochMessage] = []
  /\ getEarliestMessages [epochMessage] 1 = []
  /\ getLatestMessages [epochMessage] 1 = [].
Proof. repeat split. Qed.

(** ** String methods *)

Lemma startsWith_spec (s sub : jsstring) :
  startsWith s sub = true <-> exists after, s = sub ++ after.
Proof.
  revert s; induction sub as [|b sub IH]; intro s; simpl.
  - split; [intros _; now exists s | reflexivity].
  - destruct s as [|c s].
    + split; [discriminate | intros (after & E); discriminate E].
    + rewrite andb_true_iff, IH, Z.eqb_eq. split.
      * intros (-> & after & ->). now exists after.
      * intros (after & E). injection E as -> ->. split; [reflexivity | now exists after].
Qed.

Lemma includes_spec (s sub : jsstring) :
  includes s sub = true <-> exists before after, s = before ++ sub ++ after.
Proof.
  induction s as [|c s IH]; simpl.
  - rewrite orb_false_r, startsWith_spec. split.
    + intros (after & E). now exists [], after.
    + intros (before & after & E). destruct before as [|x before]; [|discriminate E].
      now exists after.
  - rewrite orb_true_iff, startsWith_spec, IH. split.
    + intros [(after & E) | (before & after & ->)].
      * now exists [], after.
      * now exists (c :: before), after.
    + intros (before & after & E). destruct before as [|x before]; simpl in E.
      * left. now exists after.
      * injection E as -> ->. right. now exists before, after.
Qed.

Lemma trimStart_startsClean (s : jsstring) : startsClean (trimStart s).
Proof.
  induction s as [|c s IH]; simpl; [exact I|].
  destruct (isWhiteSpace c) eqn:E; [exact IH | exact E].
Qed.

Lemma trimStart_clean (s : jsstring) : startsClean s -> trimStart s = s.
Proof. destruct s as [|c s]; simpl; [reflexivity|]. now intros ->. Qed.

Lemma trimStart_suffix (s : jsstring) : exists removed, s = removed ++ trimStart s.
Proof.
  induction s as [|c s (removed & IH)]; simpl; [now exists []|].
  destruct (isWhiteSpace c).
  - exists (c :: removed). simpl. now f_equal.
  - now exists [].
Qed.

(** A trimmed string has no white space at either end... *)
Lemma trim_ends (s : jsstring) : startsClean (trim s) /\ startsClean (rev (trim s)).
Proof.
  unfold trim, trimEnd. split.
  - pose proof (trimStart_startsClean s) as Hclean.
    destruct (trimStart_suffix (rev (trimStart s))) as (removed & E).
    apply (f_equal (@rev Z)) in E. rewrite rev_involutive, rev_app_distr in E.
    destruct (rev (trimStart (rev (trimStart s)))) as [|c r]; [exact I|].
    rewrite E in Hclean. exact Hclean.
  - rewrite rev_involutive. apply trimStart_startsClean.
Qed.

(** ... and trimming it again changes nothing. *)
Lemma trim_idempotent (s : jsstring) : trim (trim s) = trim s.
Proof.
  destruct (trim_ends s) as [Hstart Hend].
  unfold trim at 1. unfold trimEnd.
  rewrite (trimStart_clean _ Hstart), (trimStart_clean _ Hend).
  apply rev_involutive.
Qed.

(** [trim] only removes white space. *)
Lemma trimStart_keeps (s : jsstring) (c : Z) :
  In c s -> isWhiteSpace c = false -> In c (trimStart s).
Proof.
  induction s as [|x s IH]; simpl; [contradiction|].
  intros H Hc. destruct (isWhiteSpace x) eqn:E; [|exact H].
  destruct H as [-> | H]; [congruence | now apply IH].
Qed.

Lemma trim_keeps (s : jsstring) (c : Z) :
  In c s -> isWhiteSpace c = false -> In c (trim s).
Proof.
  intros H Hc. unfold trim, trimEnd.
  apply in_rev. rewrite rev_involutive. apply trimStart_keeps; [|exact Hc].
  apply -> in_rev. now apply trimStart_keeps.
Qed.

Lemma allAscii_spec (s : jsstring) :
  existsb (fun c => negb (isAscii c)) s = false <-> Forall (fun c => 0 <= c <= 0x7F) s.
Proof.
  induction s as [|c s IH]; simpl.
  - split; [constructor | reflexivity].
  - rewrite orb_false_iff, IH, negb_false_iff. unfold isAscii.
    rewrite andb_true_iff, !Z.leb_le. split.
    + intros [Hc Hs]. now constructor.
    + intro H. inversion H; subst. now split.
Qed.

(** ** [filterMessages] and [getTopMessages] *)

Lemma filterMessages_In (messages : list Message) (m : Message) :
  In m (filterMessages messages) <->
  (exists msg, In msg messages /\ m = withTrimmedContent msg) /\ keepMessage m = true.
Proof.
  unfold filterMessages. rewrite filter_In, in_map_iff.
  split; intros [(msg & H1 & H2) Hk]; (split; [exists msg|exact Hk]); auto.
Qed.

Lemma filterMessages_app (l1 l2 : list Message) :
  filterMessages (l1 ++ l2) = filterMessages l1 ++ filterMessages l2.
Proof. unfold filterMessages. now rewrite map_app, filter_app. Qed.

(** What a content that passes the filter looks like. *)
Lemma keepMessage_policy (m : Message) :
  keepMessage m = true ->
  content m <> []
  /\ Forall (fun c => 0 <= c <= 0x7F) (content m)
  /\ forall banned, In banned bannedSubstrings ->
       ~ exists before after, toLowerCase (content m) = before ++ banned ++ after.
Proof.
  unfold keepMessage. rewrite !andb_true_iff, !negb_true_iff.
  intros ((((Hne & Hliked) & Hatt) & Hlike) & Hascii).
  split; [destruct (content m); [discriminate Hne | discriminate]|].
  split; [now apply allAscii_spec|].
  intros banned Hb Hsub. apply includes_spec in Hsub.
  unfold bannedSubstrings in Hb.
  destruct Hb as [<- | [<- | [<- | []]]]; congruence.
Qed.

(** Counting a message leaves the keys as they are or appends the
    content, which then was no key and is not [__proto__]. *)
Lemma keys_countMessage (o : Obj.t Count) (m : Message) :
  map fst (countMessage o m) = map fst o
  \/ (Obj.get o (content m) = None
      /\ jsstring_eqb (content m) Obj.proto = false
      /\ map fst (countMessage o m) = map fst o ++ [content m]).
Proof.
  unfold countMessage, Obj.lookup.
  destruct (Obj.get o (content m)) as [[n|name ones]|] eqn:G.
  - left. apply ObjFacts.keys_set_present. now apply ObjFacts.get_In_keys in G.
  - left. apply ObjFacts.keys_set_present. now apply ObjFacts.get_In_keys in G.
  - assert (Happend : forall v,
               map fst (Obj.set o (content m) v) = map fst o ++ [content m]).
    { intro v. rewrite ObjFacts.set_absent by now apply ObjFacts.get_None_keys.
      now rewrite map_app. }
    destruct (Obj.inherited (content m)) eqn:I.
    + destruct (jsstring_eqb (content m) Obj.proto) eqn:P; [now left|].
      right. split; [reflexivity|]. split; [reflexivity | apply Happend].
    + right. split; [reflexivity|]. split; [|apply Happend].
      unfold Obj.inherited in I. now apply orb_false_iff in I.
Qed.

Lemma keys_messageCounts (l : list Message) (o : Obj.t Count) (k : jsstring) :
  In k (map fst (fold_left countMessage l o)) ->
  In k (map fst o) \/ In k (map content l).
Proof.
  revert o; induction l as [|m l IH]; simpl; intros o H; [now left|].
  apply IH in H as [H | H]; [|now right; right].
  destruct (keys_countMessage o m) as [E | (_ & _ & E)]; rewrite E in H; [now left|].
  apply in_app_or in H as [H | [<- | []]]; [now left | right; now left].
Qed.

Lemma times_app (k : jsstring) (l r : list jsstring) :
  times k (l ++ r) = (times k l + times k r)%nat.
Proof. unfold times. now rewrite filter_app, length_app. Qed.

Lemma times_In (k : jsstring) (l : list jsstring) : In k l <-> (1 <= times k l)%nat.
Proof.
  unfold times. split.
  - intro H. assert (In k (filter (jsstring_eqb k) l)) as H'.
    { apply filter_In. split; [exact H | apply jsstring_eqb_refl]. }
    destruct (filter (jsstring_eqb k) l); [contradiction | simpl; lia].
  - intro H. destruct (filter (jsstring_eqb k) l) as [|x r] eqn:E; [simpl in H; lia|].
    assert (In x (filter (jsstring_eqb k) l)) as Hx by (rewrite E; now left).
    apply filter_In in Hx as [Hx Ex]. apply jsstring_eqb_eq in Ex. now subst x.
Qed.

Lemma countAfter_None (c : jsstring) (n : nat) :
  jsstring_eqb c Obj.proto = false -> countAfter c n = None -> n = 0%nat.
Proof.
  intros P. destruct n as [|n]; [reflexivity|]. simpl. rewrite P.
  destruct (Obj.inheritedMethod c); discriminate.
Qed.

(** One more message: what the counting object holds follows the
    number of occurrences. *)
Lemma countMessage_get (o : Obj.t Count) (seen : list jsstring) (m : Message) :
  (forall k, Obj.get o k = countAfter k (times k seen)) ->
  forall k, Obj.get (countMessage o m) k = countAfter k (times k (seen ++ [content m])).
Proof.
  intros Hget k. rewrite times_app. unfold times at 2. simpl.
  destruct (jsstring_eqb k (content m)) eqn:E.
  - apply jsstring_eqb_eq in E. subst k. simpl length.
    replace (times (content m) seen + 1)%nat with (S (times (content m) seen)) by lia.
    pose proof (Hget (content m)) as Hc.
    unfold countMessage, Obj.lookup. rewrite Hc.
    unfold Obj.inherited.
    destruct (times (content m) seen) as [|n]; cbn [countAfter].
    + destruct (jsstring_eqb (content m) Obj.proto) eqn:P; cbn [orb].
      * exact Hc.
      * destruct (Obj.inheritedMethod (content m)); now rewrite ObjFacts.get_set_same.
    + destruct (jsstring_eqb (content m) Obj.proto) eqn:P.
      * cbn [orb]. rewrite Hc. cbn [countAfter]. now rewrite P.
      * destruct (Obj.inheritedMethod (content m)); rewrite ObjFacts.get_set_same.
        -- reflexivity.
        -- f_equal. f_equal.
           destruct (Z.of_nat (S n) =? 0) eqn:Z0; [apply Z.eqb_eq in Z0|]; lia.
  - simpl length. rewrite Nat.add_0_r, <- Hget.
    apply jsstring_eqb_neq in E.
    unfold countMessage.
    destruct (Obj.lookup o (content m)) as [[n|name ones]| |];
      try (apply ObjFacts.get_set_other; congruence).
    destruct (jsstring_eqb (content m) Obj.proto); [reflexivity|].
    apply ObjFacts.get_set_other; congruence.
Qed.

Lemma messageCounts_get_fold (l : list Message) :
  forall (o : Obj.t Count) (seen : list jsstring),
    (forall k, Obj.get o k = countAfter k (times k seen)) ->
    forall k,
      Obj.get (fold_left countMessage l o) k
      = countAfter k (times k (seen ++ map content l)).
Proof.
  induction l as [|m l IH]; intros o seen Hget k; simpl.
  - now rewrite app_nil_r.
  - replace (seen ++ content m :: map content l)
      with ((seen ++ [content m]) ++ map content l)
      by (rewrite <- app_assoc; reflexivity).
    apply IH. now apply countMessage_get.
Qed.

(** What the counting object holds under a content. *)
Lemma messageCounts_get (filteredMessages : list Message) (k : jsstring) :
  Obj.get (messageCountsOf filteredMessages) k
  = countAfter k (times k (map content filteredMessages)).
Proof.
  unfold messageCountsOf.
  apply (messageCounts_get_fold filteredMessages Obj.empty []).
  intro k'. reflexivity.
Qed.

Lemma entries_In {V} (o : Obj.t V) (e : jsstring * V) :
  In e (Obj.entries o) <-> In e o.
Proof.
  unfold Obj.entries. rewrite in_app_iff, sort_In, !filter_In.
  destruct (Obj.isArrayIndex (fst e)); simpl; intuition discriminate.
Qed.

Lemma firstn_incl {A} (n : nat) (l : list A) (x : A) : In x (firstn n l) -> In x l.
Proof.
  intro H. rewrite <- (firstn_skipn n l). apply in_or_app. now left.
Qed.

Lemma sortedMessages_firstn (messages : list Message) :
  sortedMessages messages
  = firstn 7 (sort (fun a b => subtract (snd b) (snd a))
                   (Obj.entries (messageCountsOf (filterMessages messages)))).
Proof. unfold sortedMessages. now rewrite slice_prefix by lia. Qed.

(** Every label of the chart is the content of a message that passed
    the filter. *)
Lemma sortedMessages_label (messages : list Message) (e : jsstring * Count) :
  In e (sortedMessages messages) ->
  exists m, In m (filterMessages messages) /\ content m = fst e.
Proof.
  rewrite sortedMessages_firstn. intro H.
  apply firstn_incl in H. apply (proj1 (sort_In _ _ _)) in H.
  apply (proj1 (entries_In _ _)) in H.
  apply (in_map fst) in H. unfold messageCountsOf in H.
  apply keys_messageCounts in H as [[] | H].
  apply in_map_iff in H as (m & E & Hm). now exists m.
Qed.

(** C7: [getTopMessages] returns at most 7 entries, the only limit the
    code has, and every label is the trimmed content of an input
    message, is itself trimmed, is not empty, is made of 7-bit ASCII
    characters only and, once in lower case, contains none of
    "liked a message", "attachment" and "like". *)
Theorem getTopMessages_policy (messages : list Message) :
  (length (labels (getTopMessages messages)) <= 7)%nat
  /\ length (data (getTopMessages messages)) = length (labels (getTopMessages messages))
  /\ forall label, In label (labels (getTopMessages messages)) ->
       (exists msg, In msg messages /\ label = trim (content msg))
       /\ trim label = label
       /\ label <> []
       /\ Forall (fun c => 0 <= c <= 0x7F) label
       /\ forall banned, In banned bannedSubstrings ->
            ~ exists before after, toLowerCase label = before ++ banned ++ after.
Proof.
  unfold getTopMessages. simpl. split; [|split].
  - rewrite length_map, sortedMessages_firstn. apply firstn_le_length.
  - now rewrite !length_map.
  - intros label H. apply in_map_iff in H as (e & <- & He).
    apply sortedMessages_label in He as (m & Hm & <-).
    apply filterMessages_In in Hm as [(msg & Hmsg & ->) Hkeep].
    apply keepMessage_policy in Hkeep as (Hne & Hascii & Hbanned).
    simpl in *. split; [now exists msg|].
    split; [apply trim_idempotent|]. now repeat split.
Qed.

Lemma getTopMessages_policy_witness :
  In (str "ok") (labels (getTopMessages [message (str "A") (str " ok ") None]))
  /\ trim (str "ok") = str "ok".
Proof.
  split; [left; reflexivity|].
  apply (proj2 (proj2 (getTopMessages_policy [message (str "A") (str " ok ") None]))
           (str "ok")).
  left. reflexivity.
Defined.

(** ** Array indices *)

Lemma decimal_digits (k : jsstring) :
  forallb Obj.isDigit k = true ->
  forall acc,
    fold_left (fun acc c => acc * 10 + (c - 48)) k acc
    = acc * 10 ^ Z.of_nat (length k) + Obj.decimal k
    /\ 0 <= Obj.decimal k < 10 ^ Z.of_nat (length k).
Proof.
  unfold Obj.decimal.
  induction k as [|c k IH]; intros Hd acc.
  - simpl. lia.
  - simpl in Hd. apply andb_true_iff in Hd as [Hc Hk].
    unfold Obj.isDigit in Hc. apply andb_true_iff in Hc as [Hc1 Hc2].
    apply Z.leb_le in Hc1, Hc2.
    cbn [fold_left].
    destruct (IH Hk (acc * 10 + (c - 48))) as [E1 B].
    destruct (IH Hk (0 * 10 + (c - 48))) as [E2 _].
    rewrite E1, E2.
    replace (Z.of_nat (length (c :: k))) with (Z.succ (Z.of_nat (length k)))
      by (simpl length; lia).
    rewrite Z.pow_succ_r by lia.
    split; nia.
Qed.

Lemma decimal_cons (c : Z) (k : jsstring) :
  forallb Obj.isDigit (c :: k) = true ->
  Obj.decimal (c :: k) = (c - 48) * 10 ^ Z.of_nat (length k) + Obj.decimal k
  /\ 0 <= c - 48 <= 9
  /\ 0 <= Obj.decimal k < 10 ^ Z.of_nat (length k).
Proof.
  intro Hd. pose proof Hd as Hd'.
  simpl in Hd. apply andb_true_iff in Hd as [Hc Hk].
  unfold Obj.isDigit in Hc. apply andb_true_iff in Hc as [Hc1 Hc2].
  apply Z.leb_le in Hc1, Hc2.
  destruct (decimal_digits k Hk (0 * 10 + (c - 48))) as [E B].
  split; [|split; [lia | exact B]].
  unfold Obj.decimal at 1. cbn [fold_left]. fold (Obj.decimal k) in E. rewrite E. lia.
Qed.

(** Two digit strings of the same length with the same value are equal. *)
Lemma decimal_injective_length (k1 : jsstring) :
  forall k2,
    length k1 = length k2 ->
    forallb Obj.isDigit k1 = true -> forallb Obj.isDigit k2 = true ->
    Obj.decimal k1 = Obj.decimal k2 -> k1 = k2.
Proof.
  induction k1 as [|c1 k1 IH]; intros [|c2 k2] Hlen H1 H2 E;
    try discriminate Hlen; [reflexivity|].
  injection Hlen as Hlen.
  destruct (decimal_cons c1 k1 H1) as (E1 & Hc1 & B1).
  destruct (decimal_cons c2 k2 H2) as (E2 & Hc2 & B2).
  rewrite E1, E2, Hlen in E. rewrite Hlen in B1.
  simpl in H1, H2.
  apply andb_true_iff in H1 as [_ H1]. apply andb_true_iff in H2 as [_ H2].
  assert (c1 = c2) by nia. subst c2.
  f_equal. apply IH; [exact Hlen | exact H1 | exact H2 | lia].
Qed.

Lemma arrayIndex_Some (k : jsstring) (i : Z) :
  Obj.arrayIndex k = Some i ->
  exists c r,
    k = c :: r /\ forallb Obj.isDigit k = true /\ (c = 48 -> r = []) /\ i = Obj.decimal k.
Proof.
  unfold Obj.arrayIndex. destruct k as [|c r]; [discriminate|].
  destruct (forallb Obj.isDigit (c :: r)
            && (negb (c =? 48) || match r with [] => true | _ :: _ => false end)
            && (Obj.decimal (c :: r) <? 2 ^ 32 - 1)) eqn:E; [|discriminate].
  intro H. injection H as <-.
  apply andb_true_iff in E as [E _]. apply andb_true_iff in E as [D L].
  exists c, r. split; [reflexivity|]. split; [exact D|]. split; [|reflexivity].
  intros ->. rewrite Z.eqb_refl in L. simpl in L. now destruct r.
Qed.

(** The numeral of an array index determines it. *)
Lemma arrayIndex_injective (k1 k2 : jsstring) (i : Z) :
  Obj.arrayIndex k1 = Some i -> Obj.arrayIndex k2 = Some i -> k1 = k2.
Proof.
  intros H1 H2.
  apply arrayIndex_Some in H1 as (c1 & r1 & -> & D1 & Z1 & E1).
  apply arrayIndex_Some in H2 as (c2 & r2 & -> & D2 & Z2 & E2).
  destruct (decimal_cons c1 r1 D1) as (V1 & Hc1 & B1).
  destruct (decimal_cons c2 r2 D2) as (V2 & Hc2 & B2).
  assert (P1 : 0 < 10 ^ Z.of_nat (length r1)) by (apply Z.pow_pos_nonneg; lia).
  assert (P2 : 0 < 10 ^ Z.of_nat (length r2)) by (apply Z.pow_pos_nonneg; lia).
  assert (Hlen : length r1 = length r2).
  { destruct (Z.eq_dec c1 48) as [e1|n1]; destruct (Z.eq_dec c2 48) as [e2|n2].
    - now rewrite (Z1 e1), (Z2 e2).
    - exfalso. rewrite (Z1 e1) in *. subst c1.
      change (Obj.decimal []) with 0 in V1. simpl length in V1. nia.
    - exfalso. rewrite (Z2 e2) in *. subst c2.
      change (Obj.decimal []) with 0 in V2. simpl length in V2. nia.
    - destruct (Nat.lt_trichotomy (length r1) (length r2)) as [H | [H | H]];
        [exfalso | exact H | exfalso].
      + assert (10 ^ Z.of_nat (S (length r1)) <= 10 ^ Z.of_nat (length r2))
          by (apply Z.pow_le_mono_r; lia).
        rewrite Nat2Z.inj_succ, Z.pow_succ_r in * by lia. nia.
      + assert (10 ^ Z.of_nat (S (length r2)) <= 10 ^ Z.of_nat (length r1))
          by (apply Z.pow_le_mono_r; lia).
        rewrite Nat2Z.inj_succ, Z.pow_succ_r in * by lia. nia. }
  apply decimal_injective_length; [simpl; now f_equal | exact D1 | exact D2 | lia].
Qed.

(** ** Own property order *)

Lemma Before_NoDup {A} (l : list A) (a b : A) : NoDup l -> Before l a b -> a <> b.
Proof.
  intros Hnd (l1 & l2 & l3 & ->) <-.
  apply NoDup_remove_2 in Hnd. apply Hnd.
  apply in_or_app. right. apply in_or_app. right. now left.
Qed.

Lemma NoDup_keys_filter {V} (f : jsstring * V -> bool) (o : Obj.t V) :
  NoDup (map fst o) -> NoDup (map fst (filter f o)).
Proof.
  induction o as [|e o IH]; simpl; intro H; [constructor|].
  inversion H as [|? ? Hnotin Hnd]; subst.
  destruct (f e); simpl; [|now apply IH].
  constructor; [|now apply IH].
  intro Hin. apply Hnotin.
  apply in_map_iff in Hin as (e' & <- & He'). apply in_map.
  now apply filter_In in He'.
Qed.

(** [Object.entries] lists the array indices by value, then the other
    keys in creation order. *)
Lemma entries_order {V} (o : Obj.t V) (a b : jsstring * V) :
  NoDup (map fst o) ->
  Before (Obj.entries o) a b ->
  match Obj.arrayIndex (fst a), Obj.arrayIndex (fst b) with
  | Some i, Some j => i < j
  | Some _, None => True
  | None, Some _ => False
  | None, None => Before o a b
  end.
Proof.
  intros Hnd H. unfold Obj.entries in H.
  set (byIndex := fun x y : jsstring * V => Obj.indexOf (fst x) - Obj.indexOf (fst y)) in H.
  assert (Hkey : forall x y : jsstring * V,
             byIndex x y <= 0 <-> Obj.indexOf (fst x) <= Obj.indexOf (fst y))
    by (intros; unfold byIndex; lia).
  assert (Hidx : forall e : jsstring * V,
             In e (filter (fun e => Obj.isArrayIndex (fst e)) o) ->
             exists i, Obj.arrayIndex (fst e) = Some i /\ Obj.indexOf (fst e) = i).
  { intros e He. apply filter_In in He as [_ He].
    unfold Obj.isArrayIndex, Obj.indexOf in *.
    destruct (Obj.arrayIndex (fst e)) as [i|]; [now exists i | discriminate]. }
  assert (Hnot : forall e : jsstring * V,
             In e (filter (fun e => negb (Obj.isArrayIndex (fst e))) o) ->
             Obj.arrayIndex (fst e) = None).
  { intros e He. apply filter_In in He as [_ He].
    unfold Obj.isArrayIndex in He.
    now destruct (Obj.arrayIndex (fst e)). }
  apply Before_app in H as [H | [[Ha Hb] | H]].
  - (* both are array indices *)
    pose proof (Before_In _ _ _ H) as [Ha Hb].
    apply (proj1 (sort_In _ _ _)) in Ha, Hb.
    destruct (Hidx a Ha) as (i & Ei & Ii). destruct (Hidx b Hb) as (j & Ej & Ij).
    rewrite Ei, Ej.
    pose proof (sorted_Before _ _ a b (sort_sorted byIndex _ Hkey _) H) as Hle.
    simpl in Hle.
    assert (Hne : fst a <> fst b).
    { apply (Before_NoDup (map fst (sort byIndex
                 (filter (fun e => Obj.isArrayIndex (fst e)) o)))).
      - eapply Permutation_NoDup.
        + apply Permutation_sym, Permutation_map, sort_Permutation.
        + now apply NoDup_keys_filter.
      - now apply Before_map. }
    destruct (Z.eq_dec i j) as [->|]; [|lia].
    exfalso. apply Hne. exact (arrayIndex_injective _ _ _ Ei Ej).
  - apply (proj1 (sort_In _ _ _)) in Ha.
    destruct (Hidx a Ha) as (i & Ei & _). now rewrite Ei, (Hnot b Hb).
  - pose proof (Before_In _ _ _ H) as [Ha Hb].
    rewrite (Hnot a Ha), (Hnot b Hb). now apply Before_filter in H.
Qed.

(** The keys of the counting object are the distinct contents, in the
    order in which they were first seen. *)
Lemma firstSeenBefore_app (l r : list jsstring) (a b : jsstring) :
  firstSeenBefore l a b -> firstSeenBefore (l ++ r) a b.
Proof.
  intros (Hne & l1 & l2 & -> & Hb1 & Hb2). split; [exact Hne|].
  exists l1, (l2 ++ r). rewrite <- app_assoc. simpl.
  split; [reflexivity|]. split; [exact Hb1 | apply in_or_app; now left].
Qed.

Lemma keys_messageCounts_order (l : list Message) :
  forall (o : Obj.t Count) (seen : list jsstring),
    (forall k, Obj.get o k = countAfter k (times k seen)) ->
    NoDup (map fst o) ->
    (forall a b, Before (map fst o) a b -> firstSeenBefore seen a b) ->
    NoDup (map fst (fold_left countMessage l o))
    /\ forall a b,
        Before (map fst (fold_left countMessage l o)) a b ->
        firstSeenBefore (seen ++ map content l) a b.
Proof.
  induction l as [|m l IH]; intros o seen Hget Hnd Hord; simpl.
  - rewrite app_nil_r. now split.
  - replace (seen ++ content m :: map content l)
      with ((seen ++ [content m]) ++ map content l)
      by (rewrite <- app_assoc; reflexivity).
    apply IH; [now apply countMessage_get | |];
      destruct (keys_countMessage o m) as [E | (G & P & E)]; rewrite E.
    + exact Hnd.
    + apply NoDup_app; [exact Hnd | constructor; [intros [] | constructor] |].
      intros k Hk [<- | []]. now apply ObjFacts.get_None_keys in G.
    + intros a b H. apply firstSeenBefore_app. now apply Hord.
    + intros a b H. apply Before_app in H as [H | [[Ha Hb] | H]].
      * apply firstSeenBefore_app. now apply Hord.
      * destruct Hb as [<- | []].
        assert (Hnew : ~ In (content m) seen).
        { intro Hin. apply times_In in Hin.
          rewrite Hget in G. apply (countAfter_None _ _ P) in G. lia. }
        assert (Ha' : In a seen).
        { apply ObjFacts.In_keys_get in Ha as (v & Hv). rewrite Hget in Hv.
          apply times_In. destruct (times a seen); [discriminate Hv | lia]. }
        split; [intros ->; contradiction|].
        apply in_split in Ha' as (l1 & l2 & ->).
        exists l1, (l2 ++ [content m]). rewrite <- app_assoc. simpl.
        split; [reflexivity|]. split.
        -- intro Hin. apply Hnew. apply in_or_app. now left.
        -- apply in_or_app. right. now left.
      * apply Before_cons in H as [[_ []] | H]. now apply Before_nil in H.
Qed.

Lemma messageCounts_order (filteredMessages : list Message) :
  NoDup (map fst (messageCountsOf filteredMessages))
  /\ forall a b,
      Before (map fst (messageCountsOf filteredMessages)) a b ->
      firstSeenBefore (map content filteredMessages) a b.
Proof.
  unfold messageCountsOf.
  apply (keys_messageCounts_order filteredMessages Obj.empty []).
  - intro k. reflexivity.
  - constructor.
  - intros a b H. now apply Before_nil in H.
Qed.

(** ** The ranking of [getTopMessages] *)

Lemma nth_error_pair {A B} (l : list (A * B)) (i : nat) (a : A) (b : B) :
  nth_error (map fst l) i = Some a ->
  nth_error (map snd l) i = Some b ->
  nth_error l i = Some (a, b).
Proof.
  rewrite !nth_error_map. destruct (nth_error l i) as [[a' b']|]; simpl; congruence.
Qed.

Lemma filter_split {A} (f : A -> bool) (l : list A) :
  forall l1 a l2,
    filter f l = l1 ++ a :: l2 ->
    exists l1' l2', l = l1' ++ a :: l2' /\ filter f l1' = l1 /\ filter f l2' = l2.
Proof.
  induction l as [|x l IH]; intros l1 a l2 E; simpl in E.
  - destruct l1; discriminate E.
  - destruct (f x) eqn:Fx.
    + destruct l1 as [|y l1]; simpl in E; injection E as <- E.
      * exists [], l. now repeat split.
      * apply IH in E as (l1' & l2' & -> & <- & <-).
        exists (x :: l1'), l2'. simpl. rewrite Fx. now repeat split.
    + apply IH in E as (l1' & l2' & -> & <- & <-).
      exists (x :: l1'), l2'. simpl. rewrite Fx. now repeat split.
Qed.

(** First occurrences among the elements that pass a test are first
    occurrences in the whole list. *)
Lemma firstSeenBefore_filter (f : jsstring -> bool) (l : list jsstring) (a b : jsstring) :
  firstSeenBefore (filter f l) a b -> firstSeenBefore l a b.
Proof.
  intros (Hne & l1 & l2 & E & Hb1 & Hb2). split; [exact Hne|].
  apply filter_split in E as (l1' & l2' & -> & <- & <-).
  apply filter_In in Hb2 as [Hb2 Fb].
  exists l1', l2'. split; [reflexivity|]. split; [|exact Hb2].
  intro Hin. apply Hb1. now apply filter_In.
Qed.

Lemma filterMessages_contents (messages : list Message) :
  map content (filterMessages messages)
  = filter keepContent (map (fun m => trim (content m)) messages).
Proof.
  unfold filterMessages.
  induction messages as [|m messages IH]; simpl; [reflexivity|].
  change (keepContent (trim (content m))) with (keepMessage (withTrimmedContent m)).
  destruct (keepMessage (withTrimmedContent m)); simpl; now rewrite IH.
Qed.

(** An entry of the counting object holds what the occurrences of its
    key give. *)
Lemma messageCounts_entry (filteredMessages : list Message) (e : jsstring * Count) :
  In e (messageCountsOf filteredMessages) ->
  In (fst e) (map content filteredMessages)
  /\ countAfter (fst e) (times (fst e) (map content filteredMessages)) = Some (snd e).
Proof.
  intro H. split.
  - apply (in_map fst) in H. unfold messageCountsOf in H.
    now apply keys_messageCounts in H as [[] | H].
  - destruct e as [k v]. rewrite <- messageCounts_get.
    apply In_get; [apply messageCounts_order | exact H].
Qed.

(** Without the name of an inherited method among the contents, every
    entry of the counting object holds a number, the number of
    occurrences of its key. *)
Lemma messageCounts_numeric (messages : list Message) (e : jsstring * Count) :
  Forall (fun m => Obj.inheritedMethod (trim (content m)) = false) messages ->
  In e (messageCountsOf (filterMessages messages)) ->
  snd e = Num (Z.of_nat (times (fst e) (map content (filterMessages messages)))).
Proof.
  intros Hplain H. apply messageCounts_entry in H as [Hin Hv].
  assert (Hm : Obj.inheritedMethod (fst e) = false).
  { apply in_map_iff in Hin as (m & <- & Hm).
    apply filterMessages_In in Hm as [(msg & Hmsg & ->) _]. simpl.
    now apply (proj1 (Forall_forall _ _) Hplain). }
  destruct (times (fst e) (map content (filterMessages messages))) as [|n];
    [discriminate Hv|].
  cbn [countAfter] in Hv. rewrite Hm in Hv.
  destruct (jsstring_eqb (fst e) Obj.proto); [discriminate Hv|].
  now injection Hv as <-.
Qed.

(** On numbers the comparison of [getTopMessages] is the difference of
    the counts. *)
Lemma sortedMessages_numeric (messages : list Message) :
  Forall (fun m => Obj.inheritedMethod (trim (content m)) = false) messages ->
  sortedMessages messages
  = firstn 7 (sort (fun a b => numberOf (snd b) - numberOf (snd a))
                   (Obj.entries (messageCountsOf (filterMessages messages)))).
Proof.
  intro Hplain. rewrite sortedMessages_firstn. f_equal.
  apply sort_ext_in. intros a b Ha Hb.
  apply (proj1 (entries_In _ _)) in Ha, Hb.
  rewrite (messageCounts_numeric _ _ Hplain Ha), (messageCounts_numeric _ _ Hplain Hb).
  reflexivity.
Qed.

(** C6, as stated, fails on the order of equal counts: [Object.entries]
    lists the keys that are array indices first, in ascending numeric
    order.  With the contents "2" and then "1", each seen once, the
    chart shows "1" before "2". *)
Lemma getTopMessages_index_keys_first :
  labels (getTopMessages [message (str "A") (str "2") None;
                          message (str "A") (str "1") None]) = [str "1"; str "2"]
  /\ data (getTopMessages [message (str "A") (str "2") None;
                           message (str "A") (str "1") None]) = [Num 1; Num 1]
  /\ ~ firstSeenBefore [str "2"; str "1"] (str "1") (str "2").
Proof.
  split; [reflexivity|]. split; [reflexivity|].
  intros (_ & l1 & l2 & E & Hb1 & Hb2).
  destruct l1 as [|x l1]; [discriminate E|].
  injection E as <- E.
  apply Hb1. now left.
Qed.

(** C6, amended: when no content, once trimmed, is the name of a
    method that an object inherits ("constructor", "toString", ...),
    the values of [getTopMessages] are numbers, its entries are in
    descending order of count, and two entries with equal counts are in
    the own property order of the counting object: contents that are
    array indices ("0", "1", "42", ...) first, in ascending numeric
    order, then the other contents in the order in which they were
    first seen in the input (as trimmed). *)
Theorem getTopMessages_order (messages : list Message) (i j : nat)
    (la lb : jsstring) (va vb : Count) :
  Forall (fun m => Obj.inheritedMethod (trim (content m)) = false) messages ->
  (i < j)%nat ->
  nth_error (labels (getTopMessages messages)) i = Some la ->
  nth_error (data (getTopMessages messages)) i = Some va ->
  nth_error (labels (getTopMessages messages)) j = Some lb ->
  nth_error (data (getTopMessages messages)) j = Some vb ->
  exists na nb,
    va = Num na /\ vb = Num nb
    /\ nb <= na
    /\ (na = nb ->
        ownKeyBefore (map (fun m => trim (content m)) messages) la lb).
Proof.
  unfold getTopMessages. simpl. intros Hplain Hij Hla Hva Hlb Hvb.
  pose proof (nth_error_pair _ _ _ _ Hla Hva) as Ha.
  pose proof (nth_error_pair _ _ _ _ Hlb Hvb) as Hb.
  pose proof (nth_error_Before _ _ _ _ _ Hij Ha Hb) as H.
  rewrite (sortedMessages_numeric _ Hplain) in H. apply Before_firstn in H.
  set (byCount := fun a b : jsstring * Count => numberOf (snd b) - numberOf (snd a)) in H.
  assert (Hkey : forall a b : jsstring * Count,
             byCount a b <= 0 <-> - numberOf (snd a) <= - numberOf (snd b))
    by (intros; unfold byCount; lia).
  destruct (Before_In _ _ _ H) as [Ia Ib].
  apply (proj1 (sort_In _ _ _)) in Ia, Ib.
  apply (proj1 (entries_In _ _)) in Ia, Ib.
  apply (messageCounts_numeric _ _ Hplain) in Ia, Ib. simpl in Ia, Ib.
  exists (Z.of_nat (times la (map content (filterMessages messages)))),
         (Z.of_nat (times lb (map content (filterMessages messages)))).
  split; [exact Ia|]. split; [exact Ib|].
  pose proof (sorted_Before _ _ _ _ (sort_sorted byCount _ Hkey _) H) as Hle.
  simpl in Hle. rewrite Ia, Ib in Hle. simpl in Hle. split; [lia|].
  intros E.
  apply (sort_stable byCount _ Hkey) in H; [|simpl; rewrite Ia, Ib; simpl; lia].
  destruct (messageCounts_order (filterMessages messages)) as [Hnd Hseen].
  apply (entries_order _ _ _ Hnd) in H. simpl in H.
  unfold ownKeyBefore.
  destruct (Obj.arrayIndex la), (Obj.arrayIndex lb); try exact H.
  apply (Before_map fst) in H. apply Hseen in H.
  rewrite filterMessages_contents in H.
  now apply firstSeenBefore_filter in H.
Qed.

Lemma getTopMessages_order_witness :
  exists na nb,
    Num 1 = Num na /\ Num 1 = Num nb
    /\ nb <= na
    /\ (na = nb ->
        ownKeyBefore
          (map (fun m => trim (content m))
               [message (str "A") (str "b") None; message (str "B") (str "a") None])
          (str "b") (str "a")).
Proof.
  apply (getTopMessages_order
           [message (str "A") (str "b") None; message (str "B") (str "a") None]
           0 1 (str "b") (str "a") (Num 1) (Num 1));
    [repeat constructor | repeat constructor
     | reflexivity | reflexivity | reflexivity | reflexivity].
Defined.

(** ** [getChartData] *)

Lemma topUsers_firstn (userMessages : UserMessages) :
  topUsers userMessages
  = firstn 7
      (sort (fun a b => snd b - snd a)
         (map (fun user =>
                 (user, match Obj.get userMessages user with
                        | Some array => Z.of_nat (length array)
                        | None => 0
                        end)) (Obj.keys userMessages))).
Proof. unfold topUsers. now rewrite slice_prefix by lia. Qed.

Lemma keys_own {V} (o : Obj.t V) (k : jsstring) :
  In k (Obj.keys o) -> exists v, Obj.get o k = Some v.
Proof.
  unfold Obj.keys. intro H. apply in_map_iff in H as (e & <- & He).
  apply (proj1 (entries_In _ _)) in He.
  apply ObjFacts.In_keys_get. now apply in_map.
Qed.

(** A message whose trimmed content has a character outside ASCII does
    not pass the filter. *)
Lemma filterMessages_non_ascii (m : Message) :
  existsb (fun c => negb (isAscii c)) (trim (content m)) = true ->
  filterMessages [m] = [].
Proof.
  intro H. unfold filterMessages. simpl. unfold keepMessage. simpl.
  rewrite H. now rewrite !andb_false_r.
Qed.

(** C8, as stated, fails in its last part: a content that ends with a
    no-break space contains a non-ASCII character, which [trim]
    removes before the ASCII test; the message counts for its sender
    and is counted by [getTopMessages] as well, under "hi". *)
Lemma getTopMessages_counts_trimmed_nbsp :
  existsb (fun c => negb (isAscii c)) hi_nbsp = true
  /\ getChartData (Some nbspUpload) = {| labels := [str "A"]; data := [1] |}
  /\ getTopMessages (allMessages (Some nbspUpload))
     = {| labels := [str "hi"]; data := [Num 1] |}.
Proof. repeat split. Qed.

(** C8, amended: [getChartData] returns at most 7 entries, in
    descending order of count, the count of a sender being the length
    of the sender's whole sequence, whatever the contents; and a
    message whose content, once trimmed, contains an emoji or another
    non-ASCII character contributes nothing to [getTopMessages]. *)
Theorem getChartData_counts (userMessages : UserMessages) :
  (length (labels (getChartData (Some userMessages))) <= 7)%nat
  /\ length (data (getChartData (Some userMessages)))
     = length (labels (getChartData (Some userMessages)))
  /\ (forall i j va vb,
         (i < j)%nat ->
         nth_error (data (getChartData (Some userMessages))) i = Some va ->
         nth_error (data (getChartData (Some userMessages))) j = Some vb ->
         vb <= va)
  /\ (forall i user count,
         nth_error (labels (getChartData (Some userMessages))) i = Some user ->
         nth_error (data (getChartData (Some userMessages))) i = Some count ->
         exists array,
           Obj.get userMessages user = Some array /\ count = Z.of_nat (length array))
  /\ (forall m before after,
         existsb (fun c => negb (isAscii c)) (trim (content m)) = true ->
         getTopMessages (before ++ m :: after) = getTopMessages (before ++ after)).
Proof.
  simpl. split; [|split; [|split; [|split]]].
  - rewrite length_map, topUsers_firstn. apply firstn_le_length.
  - now rewrite !length_map.
  - intros i j va vb Hij Hva Hvb.
    rewrite nth_error_map in Hva, Hvb.
    destruct (nth_error (topUsers userMessages) i) as [a|] eqn:Ha; [|discriminate].
    destruct (nth_error (topUsers userMessages) j) as [b|] eqn:Hb; [|discriminate].
    injection Hva as <-. injection Hvb as <-.
    pose proof (nth_error_Before _ _ _ _ _ Hij Ha Hb) as H.
    rewrite topUsers_firstn in H. apply Before_firstn in H.
    set (byCount := fun a b : jsstring * Z => snd b - snd a) in H.
    assert (Hkey : forall a b : jsstring * Z, byCount a b <= 0 <-> - snd a <= - snd b)
      by (intros; unfold byCount; lia).
    pose proof (sorted_Before _ _ _ _ (sort_sorted byCount _ Hkey _) H) as Hle.
    simpl in Hle. lia.
  - intros i user count Hu Hc.
    pose proof (nth_error_pair _ _ _ _ Hu Hc) as H.
    apply nth_error_In in H. rewrite topUsers_firstn in H.
    apply firstn_incl in H. apply (proj1 (sort_In _ _ _)) in H.
    apply in_map_iff in H as (user' & E & Hin). injection E as -> <-.
    apply keys_own in Hin as (array & Harray).
    exists array. now rewrite Harray.
  - intros m before after H.
    unfold getTopMessages, sortedMessages.
    replace (filterMessages (before ++ m :: after))
      with (filterMessages (before ++ after)); [reflexivity|].
    change (m :: after) with ([m] ++ after).
    now rewrite !filterMessages_app, (filterMessages_non_ascii m H).
Qed.

Lemma getChartData_counts_witness :
  existsb (fun c => negb (isAscii c))
          (trim (content (message (str "A") grinningFace None))) = true
  /\ getTopMessages ([message (str "A") (str "ok") None]
                     ++ message (str "A") grinningFace None
                        :: [message (str "B") (str "ok") None])
     = getTopMessages ([message (str "A") (str "ok") None]
                       ++ [message (str "B") (str "ok") None]).
Proof.
  split; [reflexivity|].
  apply (proj2 (proj2 (proj2 (proj2 (getChartData_counts [])))));
    reflexivity.
Defined.

(** ** [decodeUnicode] on clean ASCII text *)

Lemma ascii_bits (c : Z) :
  0 <= c <= 0x7F -> Z.land c 0xFF = c /\ Z.land c 0x80 = 0.
Proof.
  intros [Hlo Hhi]. split.
  - change 0xFF with (Z.ones 8). rewrite Z.land_ones by lia.
    apply Z.mod_small. lia.
  - apply Z.bits_inj'. intros n Hn. rewrite Z.land_spec, Z.bits_0.
    destruct (Z.eq_dec n 7) as [->|Hne].
    + replace (Z.testbit c 7) with false; [reflexivity|].
      symmetry. apply Z.bits_above_log2; [lia|].
      destruct (Z.eq_dec c 0) as [->|]; [reflexivity|].
      apply Z.log2_lt_pow2; lia.
    + change 0x80 with (2 ^ 7). rewrite Z.pow2_bits_eqb by lia.
      replace (7 =? n) with false by (symmetry; apply Z.eqb_neq; lia).
      apply andb_false_r.
Qed.

Lemma ucs2decode_ascii (s : jsstring) :
  Forall (fun c => 0 <= c <= 0x7F) s -> Utf8.ucs2decode s = s.
Proof.
  induction 1 as [|c s Hc Hs IH]; [reflexivity|].
  destruct s as [|extra rest]; [reflexivity|].
  change (Utf8.ucs2decode (c :: extra :: rest))
    with (if (0xD800 <=? c) && (c <=? 0xDBFF)
          then if Z.land extra 0xFC00 =? 0xDC00
               then (Z.shiftl (Z.land c 0x3FF) 10 + Z.land extra 0x3FF + 0x10000)
                      :: Utf8.ucs2decode rest
               else c :: Utf8.ucs2decode (extra :: rest)
          else c :: Utf8.ucs2decode (extra :: rest)).
  replace (0xD800 <=? c) with false by (symmetry; apply Z.leb_gt; lia).
  cbn [andb]. now rewrite IH.
Qed.

Lemma decodeSymbols_ascii (s : jsstring) :
  Forall (fun c => 0 <= c <= 0x7F) s -> Utf8.decodeSymbols s = Returned s.
Proof.
  induction 1 as [|c s Hc Hs IH]; [reflexivity|].
  cbn [Utf8.decodeSymbols]. destruct (ascii_bits c Hc) as [E1 E2].
  cbv zeta. rewrite E1, E2, IH. reflexivity.
Qed.

Lemma ucs2encode_ascii (s : jsstring) :
  Forall (fun c => 0 <= c <= 0x7F) s -> Utf8.ucs2encode s = s.
Proof.
  induction 1 as [|c s Hc Hs IH]; [reflexivity|].
  simpl. replace (0xFFFF <? c) with false by (symmetry; apply Z.ltb_ge; lia).
  now rewrite IH.
Qed.

(** [utf8.decode] is the identity on ASCII text. *)
Lemma decode_ascii (s : jsstring) :
  Forall (fun c => 0 <= c <= 0x7F) s -> Utf8.decode s = Returned s.
Proof.
  intro H. unfold Utf8.decode.
  rewrite (ucs2decode_ascii s H), (decodeSymbols_ascii s H). simpl.
  now rewrite (ucs2encode_ascii s H).
Qed.

Lemma hexDigit_chars (h : Z) (d : Z) :
  hexDigit h = Some d -> In h (str "0123456789abcdefABCDEF").
Proof.
  unfold hexDigit.
  destruct ((48 <=? h) && (h <=? 57)) eqn:E1;
    [|destruct ((97 <=? h) && (h <=? 102)) eqn:E2;
      [|destruct ((65 <=? h) && (h <=? 70)) eqn:E3; [|discriminate]]];
    intros _;
    match goal with
    | E : _ && _ = true |- _ =>
        apply andb_true_iff in E as [Hlo Hhi]; apply Z.leb_le in Hlo, Hhi
    end.
  - assert (h = 48 \/ h = 49 \/ h = 50 \/ h = 51 \/ h = 52 \/ h = 53 \/ h = 54
            \/ h = 55 \/ h = 56 \/ h = 57) as H by lia.
    repeat (destruct H as [-> | H]; [vm_compute; tauto|]). subst h. vm_compute. tauto.
  - assert (h = 97 \/ h = 98 \/ h = 99 \/ h = 100 \/ h = 101 \/ h = 102) as H by lia.
    repeat (destruct H as [-> | H]; [vm_compute; tauto|]). subst h. vm_compute. tauto.
  - assert (h = 65 \/ h = 66 \/ h = 67 \/ h = 68 \/ h = 69 \/ h = 70) as H by lia.
    repeat (destruct H as [-> | H]; [vm_compute; tauto|]). subst h. vm_compute. tauto.
Qed.

Lemma parseHex4_chars (h1 h2 h3 h4 n : Z) :
  parseHex4 h1 h2 h3 h4 = Some n ->
  Forall (fun h => In h (str "0123456789abcdefABCDEF")) [h1; h2; h3; h4].
Proof.
  unfold parseHex4.
  destruct (hexDigit h1) eqn:E1; [|discriminate].
  destruct (hexDigit h2) eqn:E2; [|discriminate].
  destruct (hexDigit h3) eqn:E3; [|discriminate].
  destruct (hexDigit h4) eqn:E4; [|discriminate].
  intros _.
  repeat (apply Forall_cons; [eapply hexDigit_chars; eassumption|]).
  apply Forall_nil.
Qed.

(** Without an escape to replace, the first pass changes nothing. *)
Lemma replaceEscapes_clean (s : jsstring) : ~ hasEscape s -> replaceEscapes s = s.
Proof.
  induction s as [|c tl IH]; intro Hclean; [reflexivity|].
  assert (Htl : replaceEscapes tl = tl).
  { apply IH. intros (before & h1 & h2 & h3 & h4 & after & -> & Hhex).
    apply Hclean. now exists (c :: before), h1, h2, h3, h4, after. }
  cbn [replaceEscapes].
  destruct tl as [|u [|h1 [|h2 [|h3 [|h4 rest]]]]]; try (now rewrite Htl).
  destruct ((c =? backslash) && (u =? letter_u)) eqn:E; [|now rewrite Htl].
  destruct (parseHex4 h1 h2 h3 h4) as [n|] eqn:P; [|now rewrite Htl].
  exfalso. apply Hclean.
  apply andb_true_iff in E as [Ec Eu]. apply Z.eqb_eq in Ec, Eu. subst c u.
  exists [], h1, h2, h3, h4, rest. split; [reflexivity|].
  now apply parseHex4_chars in P.
Qed.

(** C9: on a string of 7-bit ASCII characters that contains no escape
    (a backslash, the letter u and four hexadecimal digits),
    [decodeUnicode] returns the string itself. *)
Theorem decodeUnicode_clean_ascii (s : jsstring) :
  Forall (fun c => 0 <= c <= 0x7F) s ->
  ~ hasEscape s ->
  decodeUnicode s = Returned s.
Proof.
  intros Hascii Hclean. unfold decodeUnicode.
  destruct s as [|c s]; [reflexivity|].
  rewrite (replaceEscapes_clean _ Hclean). now apply decode_ascii.
Qed.

Lemma decodeUnicode_clean_ascii_witness :
  decodeUnicode (str "see you at 5") = Returned (str "see you at 5").
Proof.
  apply decodeUnicode_clean_ascii.
  - apply allAscii_spec. reflexivity.
  - intros (before & h1 & h2 & h3 & h4 & after & E & _).
    assert (Hin : In backslash (str "see you at 5")).
    { rewrite E. apply in_or_app. right. now left. }
    vm_compute in Hin. intuition discriminate.
Defined.

(** * Further properties *)

(** ** The chronological selectors with a positive count *)

Lemma slice_suffix {A} (l : list A) (n : Z) :
  0 < n -> slice l (- n) None = skipn (length l - Z.to_nat n) l.
Proof.
  intro Hn. unfold slice. rewrite relativeIndex_neg by lia.
  replace (Z.to_nat (Z.max (Z.of_nat (length l) + - n) 0))
    with (length l - Z.to_nat n)%nat by lia.
  apply firstn_all2. rewrite length_skipn. lia.
Qed.

Lemma slice_incl {A} (l : list A) (start : Z) (end_ : option Z) (x : A) :
  In x (slice l start end_) -> In x l.
Proof.
  unfold slice. intro H. apply firstn_incl in H.
  rewrite <- (firstn_skipn (Z.to_nat (relativeIndex (Z.of_nat (length l)) start)) l).
  apply in_or_app. now right.
Qed.

Lemma getSortedMessagesAscending_In (messages : list Message) (m : Message) :
  In m (getSortedMessagesAscending messages) <->
  In m messages /\ truthyTimestamp m = true.
Proof.
  unfold getSortedMessagesAscending. now rewrite sort_In, filter_In.
Qed.

Lemma getSortedMessagesAscending_sorted (messages : list Message) :
  StronglySorted (fun a b => timestampOf a <= timestampOf b)
    (getSortedMessagesAscending messages).
Proof.
  unfold getSortedMessagesAscending.
  apply (sort_sorted _ timestampOf). intros; lia.
Qed.

Lemma sorted_app_le (older newer : list Message) (a b : Message) :
  StronglySorted (fun a b => timestampOf a <= timestampOf b) (older ++ newer) ->
  In a older -> In b newer -> timestampOf a <= timestampOf b.
Proof.
  intros Hsorted Ha Hb.
  apply (sorted_Before timestampOf (older ++ newer) a b Hsorted).
  apply Before_app. right. left. now split.
Qed.

Lemma selectors_positive_count_aux (messages : list Message) (count : Z) :
  0 < count ->
  getEarliestMessages messages count
  = firstn (Z.to_nat count) (getSortedMessagesAscending messages)
  /\ getLatestMessages messages count
     = skipn (length (getSortedMessagesAscending messages) - Z.to_nat count)
             (getSortedMessagesAscending messages).
Proof.
  intro Hcount. unfold getEarliestMessages, getLatestMessages.
  rewrite slice_prefix by lia. now rewrite slice_suffix by lia.
Qed.

(** With a positive count, [getEarliestMessages] returns the first
    [count] messages of the sorted sequence and [getLatestMessages] the
    last [count]; when fewer messages carry a timestamp, both return
    all of them. *)
Theorem selectors_positive_count (messages : list Message) (count : Z) :
  0 < count ->
  getEarliestMessages messages count
  = firstn (Z.to_nat count) (getSortedMessagesAscending messages)
  /\ getLatestMessages messages count
     = skipn (length (getSortedMessagesAscending messages) - Z.to_nat count)
             (getSortedMessagesAscending messages)
  /\ length (getEarliestMessages messages count)
     = Nat.min (Z.to_nat count) (length (getSortedMessagesAscending messages))
  /\ length (getLatestMessages messages count)
     = Nat.min (Z.to_nat count) (length (getSortedMessagesAscending messages))
  /\ ((length (getSortedMessagesAscending messages) <= Z.to_nat count)%nat ->
      getEarliestMessages messages count = getSortedMessagesAscending messages
      /\ getLatestMessages messages count = getSortedMessagesAscending messages).
Proof.
  intro Hcount. unfold getEarliestMessages, getLatestMessages.
  rewrite slice_prefix by lia. rewrite slice_suffix by lia.
  split; [reflexivity|]. split; [reflexivity|].
  split; [apply length_firstn|]. split; [rewrite length_skipn; lia|].
  intro Hfew. split.
  - now apply firstn_all2.
  - replace (length (getSortedMessagesAscending messages) - Z.to_nat count)%nat
      with 0%nat by lia. reflexivity.
Qed.

Lemma selectors_positive_count_witness :
  getEarliestMessages [secondMessage; epochMessage; firstMessage] 4
  = getSortedMessagesAscending [secondMessage; epochMessage; firstMessage]
  /\ getLatestMessages [secondMessage; epochMessage; firstMessage] 4
     = getSortedMessagesAscending [secondMessage; epochMessage; firstMessage].
Proof.
  apply (selectors_positive_count [secondMessage; epochMessage; firstMessage] 4).
  - reflexivity.
  - vm_compute. repeat constructor.
Defined.

(** When at least twice [count] messages carry a timestamp, the two
    selections do not overlap: the sorted sequence is the earliest
    messages, then the messages in between, then the latest. *)
Theorem selectors_disjoint (messages : list Message) (count : Z) :
  0 < count ->
  (2 * Z.to_nat count <= length (getSortedMessagesAscending messages))%nat ->
  exists between,
    getSortedMessagesAscending messages
    = getEarliestMessages messages count ++ between ++ getLatestMessages messages count.
Proof.
  intros Hcount Hlen.
  destruct (selectors_positive_count_aux messages count Hcount) as [-> ->].
  set (sorted := getSortedMessagesAscending messages) in *.
  exists (firstn (length sorted - 2 * Z.to_nat count) (skipn (Z.to_nat count) sorted)).
  replace (skipn (length sorted - Z.to_nat count) sorted)
    with (skipn (length sorted - 2 * Z.to_nat count) (skipn (Z.to_nat count) sorted)).
  - now rewrite !firstn_skipn.
  - rewrite skipn_skipn. f_equal. lia.
Qed.

Lemma selectors_disjoint_witness :
  exists between,
    getSortedMessagesAscending [secondMessage; noonMessage; firstMessage]
    = getEarliestMessages [secondMessage; noonMessage; firstMessage] 1
      ++ between ++ getLatestMessages [secondMessage; noonMessage; firstMessage] 1.
Proof.
  apply (selectors_disjoint [secondMessage; noonMessage; firstMessage] 1).
  - reflexivity.
  - vm_compute. repeat constructor.
Defined.

(** The earliest messages are the earliest and the latest are the
    latest: with a positive count, no message left out of
    [getEarliestMessages] has a smaller timestamp than a message in it,
    and no message left out of [getLatestMessages] has a larger one. *)
Theorem selectors_extremes (messages : list Message) (count : Z) :
  0 < count ->
  (exists newer,
      getSortedMessagesAscending messages = getEarliestMessages messages count ++ newer
      /\ forall a b,
          In a (getEarliestMessages messages count) -> In b newer ->
          timestampOf a <= timestampOf b)
  /\ (exists older,
         getSortedMessagesAscending messages = older ++ getLatestMessages messages count
         /\ forall a b,
             In a older -> In b (getLatestMessages messages count) ->
             timestampOf a <= timestampOf b).
Proof.
  intro Hcount.
  destruct (selectors_positive_count_aux messages count Hcount) as [-> ->].
  pose proof (getSortedMessagesAscending_sorted messages) as Hsorted.
  split.
  - exists (skipn (Z.to_nat count) (getSortedMessagesAscending messages)).
    split; [now rewrite firstn_skipn|].
    intros a b. apply sorted_app_le. now rewrite firstn_skipn.
  - exists (firstn (length (getSortedMessagesAscending messages) - Z.to_nat count)
                   (getSortedMessagesAscending messages)).
    split; [now rewrite firstn_skipn|].
    intros a b. apply sorted_app_le. now rewrite firstn_skipn.
Qed.

Lemma selectors_extremes_witness :
  exists older,
    getSortedMessagesAscending [secondMessage; firstMessage]
    = older ++ getLatestMessages [secondMessage; firstMessage] 1
    /\ forall a b,
        In a older -> In b (getLatestMessages [secondMessage; firstMessage] 1) ->
        timestampOf a <= timestampOf b.
Proof.
  apply (selectors_extremes [secondMessage; firstMessage] 1). reflexivity.
Defined.

(** Whatever the count, every message that a selector returns is a
    message of the input with a timestamp that is present and is not 0:
    the page never formats a missing timestamp. *)
Theorem selectors_timestamped (messages : list Message) (count : Z) (m : Message) :
  In m (getEarliestMessages messages count) \/ In m (getLatestMessages messages count) ->
  In m messages /\ exists t, timestamp_ms m = Some t /\ t <> 0.
Proof.
  unfold getEarliestMessages, getLatestMessages.
  intros [H | H]; apply slice_incl, getSortedMessagesAscending_In in H;
    destruct H as [Hin Ht]; (split; [exact Hin|]);
    unfold truthyTimestamp in Ht;
    (destruct (timestamp_ms m) as [t|]; [|discriminate]);
    exists t; (split; [reflexivity|]);
    apply negb_true_iff, Z.eqb_neq in Ht; exact Ht.
Qed.

Lemma selectors_timestamped_witness :
  In firstMessage [epochMessage; firstMessage]
  /\ exists t, timestamp_ms firstMessage = Some t /\ t <> 0.
Proof.
  apply (selectors_timestamped [epochMessage; firstMessage] 4 firstMessage).
  left. left. reflexivity.
Defined.

Lemma getSortedMessagesAscending_spec_witness :
  Before [noonMessage; secondMessage; noonReply] noonMessage noonReply.
Proof.
  apply (proj2 (proj2 (getSortedMessagesAscending_spec
                         [noonMessage; secondMessage; noonReply]))).
  - exists [secondMessage], [], []. reflexivity.
  - reflexivity.
Defined.

Lemma sort_sorted_id {A} (compareFn : A -> A -> Z) (key : A -> Z) (l : list A) :
  (forall a b, compareFn a b <= 0 <-> key a <= key b) ->
  StronglySorted (fun a b => key a <= key b) l ->
  sort compareFn l = l.
Proof.
  intros Hkey. induction 1 as [|x l Hl IH Hx]; simpl; [reflexivity|].
  rewrite IH. destruct l as [|y l']; [reflexivity|]. simpl.
  inversion Hx as [|? ? Hxy _]; subst.
  apply Hkey, Z.leb_le in Hxy. now rewrite Hxy.
Qed.

Lemma filter_all {A} (f : A -> bool) (l : list A) :
  (forall x, In x l -> f x = true) -> filter f l = l.
Proof.
  induction l as [|x l IH]; simpl; intro H; [reflexivity|].
  rewrite (H x (or_introl eq_refl)). f_equal. apply IH. intros y Hy. apply H. now right.
Qed.

(** Sorting what [getSortedMessagesAscending] returned changes nothing. *)
Theorem getSortedMessagesAscending_idempotent (messages : list Message) :
  getSortedMessagesAscending (getSortedMessagesAscending messages)
  = getSortedMessagesAscending messages.
Proof.
  unfold getSortedMessagesAscending at 1.
  rewrite filter_all.
  - apply (sort_sorted_id _ timestampOf); [intros; lia|].
    apply getSortedMessagesAscending_sorted.
  - intros m Hm. now apply getSortedMessagesAscending_In in Hm.
Qed.

(** ** More on the normalisation loop *)

Lemma storedSequence_app (k : jsstring) (l1 l2 : list Raw.t) :
  storedSequence k (l1 ++ l2) = storedSequence k l1 ++ storedSequence k l2.
Proof. unfold storedSequence. now rewrite flat_map_app, filter_app. Qed.

Lemma storedSequence_sender (k : jsstring) (messages : list Raw.t) :
  Forall (fun m => sender_name m = k) (storedSequence k messages).
Proof.
  apply Forall_forall. intros m Hm. unfold storedSequence in Hm.
  apply filter_In in Hm as [_ Hm]. now apply jsstring_eqb_eq.
Qed.

(** Uploading two lists in a row as one file gives every sender the
    sequence of the first list followed by the sequence of the second. *)
Theorem normalize_app (first second : list Raw.t) :
  exists um1 um2 um,
    normalize first = Returned um1
    /\ normalize second = Returned um2
    /\ normalize (first ++ second) = Returned um
    /\ forall k, seqAt um k = seqAt um1 k ++ seqAt um2 k.
Proof.
  destruct (normalize_spec first) as (um1 & H1 & S1 & _).
  destruct (normalize_spec second) as (um2 & H2 & S2 & _).
  destruct (normalize_spec (first ++ second)) as (um & H & S & _).
  exists um1, um2, um. repeat split; try assumption.
  intro k. now rewrite S, S1, S2, storedSequence_app.
Qed.

Lemma filter_partition_Permutation {A} (f : A -> bool) (l : list A) :
  Permutation (filter f l ++ filter (fun x => negb (f x)) l) l.
Proof.
  induction l as [|x l IH]; simpl; [constructor|].
  destruct (f x); simpl.
  - now constructor.
  - rewrite <- Permutation_middle. now constructor.
Qed.

Lemma entries_Permutation {V} (o : Obj.t V) : Permutation (Obj.entries o) o.
Proof.
  unfold Obj.entries. rewrite sort_Permutation.
  apply (filter_partition_Permutation (fun e => Obj.isArrayIndex (fst e))).
Qed.

Lemma forEachBody_cases (um : UserMessages) (msg : Raw.t) :
  noInheritedKeys um ->
  (storedMessage msg = [] /\ forEachBody um msg = Returned um)
  \/ exists m,
      storedMessage msg = [m]
      /\ Obj.inherited (sender_name m) = false
      /\ forEachBody um msg = Returned (push um (sender_name m) m).
Proof.
  intro Hno. rewrite (forEachBody_spec _ _ Hno).
  destruct (storedMessage_cases msg) as [[_ ->] | (m & _ & -> & _ & Hplain)].
  - left. now split.
  - right. exists m. now repeat split.
Qed.

(** What the loop keeps true of the mapping: no sender appears twice,
    no sender has an empty sequence and no key is an inherited name. *)
Lemma forEach_wellFormed (messages : list Raw.t) :
  forall um0,
    noInheritedKeys um0 ->
    NoDup (map fst um0) ->
    (forall k seq, In (k, seq) um0 -> seq <> []) ->
    exists um,
      forEach messages forEachBody um0 = Returned um
      /\ NoDup (map fst um)
      /\ forall k seq, In (k, seq) um -> seq <> [].
Proof.
  induction messages as [|msg messages IH]; intros um0 Hno Hnd Hne; simpl.
  - now exists um0.
  - destruct (forEachBody_cases um0 msg Hno) as [[_ ->] | (m & _ & Hplain & ->)]; simpl.
    + now apply IH.
    + apply IH.
      * now apply noInheritedKeys_set.
      * now apply keys_set_NoDup.
      * intros k seq H. apply set_In in H as [E | H]; [|now apply (Hne k)].
        injection E as _ ->. now destruct (seqAt um0 (sender_name m)).
Qed.

(** In the mapping of an upload no sender appears twice, no sender has
    an empty sequence, and every message is stored under its own
    sender name. *)
Theorem normalize_wellFormed (messages : list Raw.t) :
  exists um,
    normalize messages = Returned um
    /\ NoDup (Obj.keys um)
    /\ forall k seq,
        Obj.get um k = Some seq ->
        seq <> [] /\ Forall (fun m => sender_name m = k) seq.
Proof.
  destruct (forEach_wellFormed messages Obj.empty) as (um & Hrun & Hnd & Hne).
  - constructor.
  - constructor.
  - intros k seq [].
  - destruct (normalize_spec messages) as (um' & Hrun' & Hseq & _).
    unfold normalize in Hrun'. rewrite Hrun in Hrun'. injection Hrun' as <-.
    exists um. split; [exact Hrun|]. split.
    + unfold Obj.keys. eapply Permutation_NoDup; [|exact Hnd].
      apply Permutation_sym, Permutation_map, entries_Permutation.
    + intros k seq Hget. split.
      * apply (Hne k). now apply get_In.
      * pose proof (Hseq k) as E. unfold seqAt in E. rewrite Hget in E.
        rewrite E. apply storedSequence_sender.
Qed.

Lemma normalize_wellFormed_witness :
  [message (str "A") (str "first") None] <> []
  /\ Forall (fun m => sender_name m = str "A") [message (str "A") (str "first") None].
Proof.
  destruct (normalize_wellFormed [rawMessage (str "A") (str "first") None])
    as (um & Hrun & _ & H).
  apply (H (str "A")).
  vm_compute in Hrun. injection Hrun as <-. reflexivity.
Defined.

(** ** Records that are plain ASCII *)

Lemma storedSequence_ascii (k : jsstring) (messages : list Raw.t) :
  Forall (fun msg =>
            Forall (fun c => 0 <= c <= 0x7F) (orEmpty (Raw.content msg))
            /\ Forall (fun c => 0 <= c <= 0x7F) (orEmpty (Raw.sender_name msg))
            /\ Obj.inherited (orEmpty (Raw.sender_name msg)) = false)
         messages ->
  storedSequence k messages
  = map unchanged
        (filter (fun msg => jsstring_eqb (orEmpty (Raw.sender_name msg)) k) messages)
  /\ filter stored messages = messages.
Proof.
  intro Hascii. split.
  - unfold storedSequence.
    induction Hascii as [|msg messages (Hc & Hs & Hplain) _ IH]; simpl; [reflexivity|].
    rewrite filter_app, IH. unfold storedMessage, stored, canonical.
    rewrite (decode_ascii _ Hc), (decode_ascii _ Hs), Hplain. simpl.
    destruct (jsstring_eqb (orEmpty (Raw.sender_name msg)) k); reflexivity.
  - apply filter_all. intros msg Hmsg.
    apply (proj1 (Forall_forall _ _) Hascii) in Hmsg as (Hc & Hs & Hplain).
    unfold stored. now rewrite (decode_ascii _ Hc), (decode_ascii _ Hs), Hplain.
Qed.

(** When the content and the sender name of every record are 7-bit
    ASCII and no sender name is a name that every object inherits,
    nothing is dropped and nothing is changed: every sender's sequence
    is the records of that sender, in input order, with their fields as
    they were (an absent field as the empty string). *)
Theorem normalize_ascii (messages : list Raw.t) :
  Forall (fun msg =>
            Forall (fun c => 0 <= c <= 0x7F) (orEmpty (Raw.content msg))
            /\ Forall (fun c => 0 <= c <= 0x7F) (orEmpty (Raw.sender_name msg))
            /\ Obj.inherited (orEmpty (Raw.sender_name msg)) = false)
         messages ->
  exists um,
    normalize messages = Returned um
    /\ totalMessages um = length messages
    /\ forall k,
        seqAt um k
        = map unchanged
              (filter (fun msg => jsstring_eqb (orEmpty (Raw.sender_name msg)) k)
                      messages).
Proof.
  intro Hascii.
  destruct (normalize_spec messages) as (um & Hrun & Hseq & Htot).
  exists um. split; [exact Hrun|]. split.
  - rewrite Htot. now rewrite (proj2 (storedSequence_ascii [] messages Hascii)).
  - intro k. rewrite Hseq. apply storedSequence_ascii. exact Hascii.
Qed.

Lemma normalize_ascii_witness :
  exists um,
    normalize [rawMessage (str "A") (str "hi") None;
               rawMessage (str "B") (str "yo") (Some 5)] = Returned um
    /\ totalMessages um = 2%nat
    /\ forall k,
        seqAt um k
        = map unchanged
              (filter (fun msg => jsstring_eqb (orEmpty (Raw.sender_name msg)) k)
                      [rawMessage (str "A") (str "hi") None;
                       rawMessage (str "B") (str "yo") (Some 5)]).
Proof.
  apply (normalize_ascii [rawMessage (str "A") (str "hi") None;
                          rawMessage (str "B") (str "yo") (Some 5)]).
  repeat (apply Forall_cons;
          [split; [apply allAscii_spec; reflexivity
                  | split; [apply allAscii_spec; reflexivity | reflexivity]]|]).
  apply Forall_nil.
Defined.

(** ** Sender names that every object inherits *)

(** A record whose sender name decodes to a name that every object
    inherits ("constructor", "toString", "__proto__", ...) is dropped,
    and the rest of the upload is unaffected. *)
Theorem normalize_skips_inherited (before after : list Raw.t) (msg : Raw.t) :
  plainSender msg = false ->
  normalize (before ++ msg :: after) = normalize (before ++ after).
Proof.
  intro Hsender. unfold normalize. rewrite !forEach_app. simpl.
  destruct (forEach_forEachBody before Obj.empty) as (um & Hrun & Hno & _);
    [constructor|].
  rewrite Hrun. simpl. rewrite (forEachBody_spec _ _ Hno).
  unfold storedMessage. rewrite stored_accepted, Hsender, andb_false_r. reflexivity.
Qed.

Lemma normalize_skips_inherited_witness :
  normalize ([rawMessage (str "A") (str "one") None]
             ++ rawMessage (str "constructor") (str "two") None
                :: [rawMessage (str "A") (str "three") None])
  = normalize ([rawMessage (str "A") (str "one") None]
               ++ [rawMessage (str "A") (str "three") None]).
Proof.
  apply (normalize_skips_inherited
           [rawMessage (str "A") (str "one") None]
           [rawMessage (str "A") (str "three") None]
           (rawMessage (str "constructor") (str "two") None)).
  reflexivity.
Defined.

(** The mapping of an upload holds exactly one message per record
    whose two fields decode and whose decoded sender name is not a name
    that every object inherits, and no key of the mapping is such a
    name. *)
Theorem normalize_stored_total (messages : list Raw.t) :
  exists um,
    normalize messages = Returned um
    /\ totalMessages um = length (filter stored messages)
    /\ Forall (fun k => Obj.inherited k = false) (Obj.keys um).
Proof.
  destruct (forEach_forEachBody messages Obj.empty) as (um & Hrun & Hno & _ & Htot);
    [constructor|].
  exists um. split; [exact Hrun|]. split; [exact Htot|].
  apply Forall_forall. intros k Hk. unfold Obj.keys in Hk.
  apply in_map_iff in Hk as (e & <- & He). apply (proj1 (entries_In _ _)) in He.
  apply (proj1 (Forall_forall _ _) Hno). now apply in_map.
Qed.

(** ** All the messages of a mapping *)

Lemma Permutation_concat {A} (l l' : list (list A)) :
  Permutation l l' -> Permutation (concat l) (concat l').
Proof.
  induction 1; simpl.
  - constructor.
  - now apply Permutation_app_head.
  - rewrite !app_assoc. apply Permutation_app_tail, Permutation_app_comm.
  - etransitivity; eassumption.
Qed.

Lemma push_Permutation (um : UserMessages) (k : jsstring) (m : Message) :
  Permutation (concat (map snd (push um k m))) (concat (map snd um) ++ [m]).
Proof.
  unfold push, seqAt.
  induction um as [|[k0 v0] um IH]; simpl; [reflexivity|].
  destruct (jsstring_eqb k0 k) eqn:E; simpl.
  - rewrite <- !app_assoc. apply Permutation_app_head, Permutation_app_comm.
  - rewrite <- app_assoc. now apply Permutation_app_head.
Qed.

Lemma forEach_Permutation (messages : list Raw.t) :
  forall um0,
    noInheritedKeys um0 ->
    exists um,
      forEach messages forEachBody um0 = Returned um
      /\ Permutation (concat (map snd um))
                     (concat (map snd um0) ++ flat_map storedMessage messages).
Proof.
  induction messages as [|msg messages IH]; intros um0 Hno; simpl.
  - exists um0. split; [reflexivity|]. now rewrite app_nil_r.
  - destruct (forEachBody_cases um0 msg Hno) as [[-> ->] | (m & -> & Hplain & ->)]; simpl.
    + now apply IH.
    + destruct (IH (push um0 (sender_name m) m)) as (um & Hrun & Hperm).
      { now apply noInheritedKeys_set. }
      exists um. split; [exact Hrun|].
      rewrite Hperm, push_Permutation, <- app_assoc. reflexivity.
Qed.

Lemma allMessages_normalize (messages : list Raw.t) :
  exists um,
    normalize messages = Returned um
    /\ Permutation (allMessages (Some um)) (flat_map storedMessage messages).
Proof.
  destruct (forEach_Permutation messages Obj.empty) as (um & Hrun & Hperm);
    [constructor|].
  exists um. split; [exact Hrun|].
  unfold allMessages, Obj.values.
  rewrite (Permutation_concat _ _ (Permutation_map snd (entries_Permutation um))).
  exact Hperm.
Qed.

Lemma storedMessage_length (msg : Raw.t) :
  length (storedMessage msg) = if stored msg then 1%nat else 0%nat.
Proof.
  destruct (storedMessage_cases msg) as [[-> ->] | (m & -> & -> & _)]; reflexivity.
Qed.

Lemma storedMessage_canonical (msg : Raw.t) (m : Message) :
  In m (storedMessage msg) -> In m (canonical msg).
Proof. unfold storedMessage. destruct (stored msg); [trivial | intros []]. Qed.

(** After an upload, [allMessages] holds the messages of the records
    that the loop stores (both fields decode, the sender name is not an
    inherited one), each one once, and nothing else; it has as many
    entries as there are such records. *)
Theorem allMessages_after_upload (data : option UserMessages) (messages : list Raw.t) :
  Permutation (allMessages (handleFileUpload data messages))
              (flat_map storedMessage messages)
  /\ length (allMessages (handleFileUpload data messages))
     = length (filter stored messages).
Proof.
  destruct (allMessages_normalize messages) as (um & Hrun & Hperm).
  unfold handleFileUpload. rewrite Hrun. split; [exact Hperm|].
  rewrite (Permutation_length Hperm).
  clear. induction messages as [|msg messages IH]; simpl; [reflexivity|].
  rewrite length_app, storedMessage_length, IH.
  now destruct (stored msg).
Qed.

(** An upload replaces the data: the new mapping is built from the
    file alone, whatever was loaded before. *)
Theorem handleFileUpload_replaces (data : option UserMessages) (messages : list Raw.t) :
  exists um,
    handleFileUpload data messages = Some um
    /\ handleFileUpload None messages = Some um
    /\ normalize messages = Returned um.
Proof.
  destruct (normalize_spec messages) as (um & Hrun & _).
  exists um. unfold handleFileUpload. now rewrite Hrun.
Qed.

(** ** What the page shows after an upload *)

Lemma canonical_In (raw : Raw.t) (m : Message) :
  In m (canonical raw) ->
  canonical raw = [m] /\ timestamp_ms m = Raw.timestamp_ms raw.
Proof.
  unfold canonical.
  destruct (Utf8.decode (orEmpty (Raw.content raw))) as [dc|]; [|intros []].
  destruct (Utf8.decode (orEmpty (Raw.sender_name raw))) as [ds|]; [|intros []].
  intros [<- | []]. now split.
Qed.

(** Each of the two lists under the charts has at most 4 messages, and
    every message in them comes from a record of the file that decodes
    and has a timestamp other than 0. *)
Theorem displayed_messages (data : option UserMessages) (messages : list Raw.t) :
  (length (latestMessages (handleFileUpload data messages)) <= 4)%nat
  /\ (length (earliestMessages (handleFileUpload data messages)) <= 4)%nat
  /\ forall m,
      In m (latestMessages (handleFileUpload data messages))
      \/ In m (earliestMessages (handleFileUpload data messages)) ->
      exists raw t,
        In raw messages /\ canonical raw = [m]
        /\ Raw.timestamp_ms raw = Some t /\ t <> 0.
Proof.
  unfold latestMessages, earliestMessages.
  set (all := allMessages (handleFileUpload data messages)).
  assert (Hall : forall m, In m all -> In m (flat_map canonical messages)).
  { intros m Hm. destruct (allMessages_normalize messages) as (um & Hrun & Hperm).
    unfold all, handleFileUpload in Hm. rewrite Hrun in Hm.
    apply (Permutation_in _ Hperm), in_flat_map in Hm as (raw & Hraw & Hm).
    apply in_flat_map. exists raw. split; [exact Hraw|].
    now apply storedMessage_canonical. }
  destruct (selectors_positive_count_aux all 4 eq_refl) as [He Hl].
  split; [rewrite Hl, length_skipn; lia|].
  split; [rewrite He; apply firstn_le_length|].
  intros m Hm.
  assert (Hsorted : In m (getSortedMessagesAscending all)).
  { unfold getLatestMessages, getEarliestMessages in Hm.
    destruct Hm as [Hm | Hm]; now apply slice_incl in Hm. }
  apply getSortedMessagesAscending_In in Hsorted as [Hin Ht].
  apply Hall, in_flat_map in Hin as (raw & Hraw & Hm').
  apply canonical_In in Hm' as [Hcan Hts].
  unfold truthyTimestamp in Ht. rewrite Hts in Ht.
  destruct (Raw.timestamp_ms raw) as [t|] eqn:Eraw; [|discriminate].
  exists raw, t. split; [exact Hraw|]. split; [exact Hcan|]. split; [exact Eraw|].
  apply negb_true_iff in Ht. now apply Z.eqb_neq in Ht.
Qed.

Lemma displayed_messages_witness :
  exists raw t,
    In raw [rawMessage (str "A") (str "hi") (Some 7)]
    /\ canonical raw = [message (str "A") (str "hi") (Some 7)]
    /\ Raw.timestamp_ms raw = Some t /\ t <> 0.
Proof.
  apply (proj2 (proj2 (displayed_messages None [rawMessage (str "A") (str "hi") (Some 7)]))).
  left. left. reflexivity.
Defined.

(** ** The first seven of a ranking *)

Section Ranking.
Context {K V : Type}.
Variable count : K * V -> Z.
Implicit Types (l : list (K * V)) (e : K * V).

Lemma ranking_key (a b : K * V) : count b - count a <= 0 <-> - count a <= - count b.
Proof. lia. Qed.

Lemma ranking_In l e :
  In e (firstn 7 (sort (fun a b => count b - count a) l)) -> In e l.
Proof. intro H. apply firstn_incl in H. now apply (proj1 (sort_In _ _ _)) in H. Qed.

Lemma NoDup_firstn_keys (n : nat) l :
  NoDup (map fst l) -> NoDup (map fst (firstn n l)).
Proof.
  intro H. rewrite <- (firstn_skipn n l), map_app in H.
  now apply NoDup_app_remove_r in H.
Qed.

Lemma ranking_NoDup l :
  NoDup (map fst l) ->
  NoDup (map fst (firstn 7 (sort (fun a b => count b - count a) l))).
Proof.
  intro H. apply NoDup_firstn_keys.
  eapply Permutation_NoDup; [|exact H].
  apply Permutation_sym, Permutation_map, sort_Permutation.
Qed.

(** Nothing is cut off from a ranking that shows fewer than seven. *)
Lemma ranking_all (compareFn : K * V -> K * V -> Z) l :
  (length (firstn 7 (sort compareFn l)) < 7)%nat ->
  Permutation (firstn 7 (sort compareFn l)) l.
Proof.
  intro H. rewrite length_firstn in H.
  rewrite firstn_all2 by lia. apply sort_Permutation.
Qed.

(** What is cut off has a count no larger than what is shown. *)
Lemma ranking_cut l (shown cut : K * V) :
  In shown (firstn 7 (sort (fun a b => count b - count a) l)) ->
  In cut l ->
  ~ In cut (firstn 7 (sort (fun a b => count b - count a) l)) ->
  count cut <= count shown.
Proof.
  intros Hshown Hcut Hnot.
  set (sorted := sort (fun a b => count b - count a) l) in *.
  assert (Hin : In cut (skipn 7 sorted)).
  { apply (proj2 (sort_In (fun a b => count b - count a) l cut)) in Hcut.
    fold sorted in Hcut. rewrite <- (firstn_skipn 7 sorted) in Hcut.
    apply in_app_or in Hcut as [H | H]; [contradiction | exact H]. }
  assert (Hbefore : Before sorted shown cut).
  { rewrite <- (firstn_skipn 7 sorted). apply Before_app. right. left. now split. }
  pose proof (sorted_Before (fun e => - count e) sorted shown cut
                (sort_sorted _ (fun e => - count e) ranking_key l) Hbefore) as H.
  simpl in H. lia.
Qed.
End Ranking.

Lemma sumZ_Permutation (l l' : list Z) : Permutation l l' -> sumZ l = sumZ l'.
Proof. induction 1; simpl; lia. Qed.

Lemma sumZ_firstn (n : nat) (l : list Z) :
  Forall (fun v => 0 <= v) l -> 0 <= sumZ (firstn n l) <= sumZ l.
Proof.
  intro H. revert n. induction H as [|v l Hv Hl IH]; intros [|n]; simpl; try lia.
  - assert (0 <= sumZ l) by (specialize (IH 0%nat); simpl in IH; lia). lia.
  - specialize (IH n). lia.
Qed.

(** ** The counts of [getTopMessages] *)

Lemma occurrences_times (k : jsstring) (l : list jsstring) :
  occurrences k l = Z.of_nat (times k l).
Proof. reflexivity. Qed.

Lemma times_filter (f : jsstring -> bool) (k : jsstring) (l : list jsstring) :
  f k = true -> times k (filter f l) = times k l.
Proof.
  intro Hk. unfold times. f_equal.
  induction l as [|x l IH]; simpl; [reflexivity|].
  destruct (jsstring_eqb k x) eqn:E.
  - apply jsstring_eqb_eq in E. subst x. rewrite Hk. simpl.
    rewrite jsstring_eqb_refl. now f_equal.
  - destruct (f x); simpl; [rewrite E|]; exact IH.
Qed.

Lemma filterMessages_keepContent (messages : list Message) (c : jsstring) :
  In c (map content (filterMessages messages)) -> keepContent c = true.
Proof.
  rewrite filterMessages_contents. intro H. now apply filter_In in H.
Qed.

Lemma filterMessages_times (messages : list Message) (c : jsstring) :
  In c (map content (filterMessages messages)) ->
  times c (map content (filterMessages messages))
  = times c (map (fun m => trim (content m)) messages).
Proof.
  intro H. rewrite filterMessages_contents.
  apply times_filter. now apply filterMessages_keepContent in H.
Qed.

(** The entries of the counting object: one per surviving content
    other than [__proto__], holding what the number of its occurrences
    gives. *)
Lemma messageCounts_entries (messages : list Message) (c : jsstring) (v : Count) :
  In (c, v) (messageCountsOf (filterMessages messages)) <->
  In c (map content (filterMessages messages))
  /\ countAfter c (times c (map (fun m => trim (content m)) messages)) = Some v.
Proof.
  split.
  - intro H. apply messageCounts_entry in H as [Hin Hv]. simpl in *.
    split; [exact Hin|]. now rewrite <- (filterMessages_times _ _ Hin).
  - intros [Hin Hv]. rewrite <- (filterMessages_times _ _ Hin) in Hv.
    rewrite <- messageCounts_get in Hv. now apply get_In.
Qed.

(** The value shown for a label follows the number [n] of input
    messages whose trimmed content is that label, which is at least 1:
    it is the number [n], except under the name of a method that an
    object inherits ("constructor", "toString", ...), where it is the
    text of that function followed by [n] times "1".  [__proto__] is
    never a label. *)
Theorem getTopMessages_counts (messages : list Message) (i : nat)
    (label : jsstring) (value : Count) :
  nth_error (labels (getTopMessages messages)) i = Some label ->
  nth_error (data (getTopMessages messages)) i = Some value ->
  (1 <= times label (map (fun m => trim (content m)) messages))%nat
  /\ label <> Obj.proto
  /\ value
     = if Obj.inheritedMethod label
       then FunctionText label (times label (map (fun m => trim (content m)) messages))
       else Num (occurrences label (map (fun m => trim (content m)) messages)).
Proof.
  unfold getTopMessages. simpl. intros Hl Hv.
  pose proof (nth_error_pair _ _ _ _ Hl Hv) as H.
  apply nth_error_In in H. rewrite sortedMessages_firstn in H.
  apply firstn_incl in H. apply (proj1 (sort_In _ _ _)) in H.
  apply (proj1 (entries_In _ _)) in H.
  apply messageCounts_entries in H as [Hin Hcount].
  rewrite occurrences_times.
  destruct (times label (map (fun m => trim (content m)) messages)) as [|n];
    [discriminate Hcount|].
  cbn [countAfter] in Hcount.
  destruct (jsstring_eqb label Obj.proto) eqn:P; [discriminate Hcount|].
  apply jsstring_eqb_neq in P.
  split; [lia|]. split; [exact P|].
  destruct (Obj.inheritedMethod label); now injection Hcount as <-.
Qed.

Lemma getTopMessages_counts_witness :
  (1 <= times (str "toString")
          (map (fun m => trim (content m))
               [message (str "A") (str "toString") None;
                message (str "B") (str " toString ") None]))%nat
  /\ str "toString" <> Obj.proto
  /\ FunctionText (str "toString") 2
     = if Obj.inheritedMethod (str "toString")
       then FunctionText (str "toString")
              (times (str "toString")
                 (map (fun m => trim (content m))
                      [message (str "A") (str "toString") None;
                       message (str "B") (str " toString ") None]))
       else Num (occurrences (str "toString")
                   (map (fun m => trim (content m))
                        [message (str "A") (str "toString") None;
                         message (str "B") (str " toString ") None])).
Proof.
  apply (getTopMessages_counts
           [message (str "A") (str "toString") None;
            message (str "B") (str " toString ") None]
           0 (str "toString") (FunctionText (str "toString") 2)); reflexivity.
Defined.

Lemma entries_keys_NoDup {V} (o : Obj.t V) :
  NoDup (map fst o) -> NoDup (map fst (Obj.entries o)).
Proof.
  intro H. eapply Permutation_NoDup; [|exact H].
  apply Permutation_sym, Permutation_map, entries_Permutation.
Qed.

(** No label appears twice in the chart of [getTopMessages]. *)
Theorem getTopMessages_labels_distinct (messages : list Message) :
  NoDup (labels (getTopMessages messages)).
Proof.
  unfold getTopMessages. simpl. rewrite sortedMessages_firstn.
  apply NoDup_firstn_keys.
  eapply Permutation_NoDup;
    [apply Permutation_sym, Permutation_map, sort_Permutation|].
  apply entries_keys_NoDup.
  apply (messageCounts_order (filterMessages messages)).
Qed.

(** The seven entries shown are a top seven: when no content, once
    trimmed, is the name of an inherited method, a content other than
    [__proto__] that passed the filter and is not shown occurs no more
    often than any content shown; and when fewer than seven entries
    are shown, every content other than [__proto__] that passed the
    filter is among them. *)
Theorem getTopMessages_selection (messages : list Message) :
  (Forall (fun m => Obj.inheritedMethod (trim (content m)) = false) messages ->
   forall c value,
     In c (map content (filterMessages messages)) ->
     c <> Obj.proto ->
     ~ In c (labels (getTopMessages messages)) ->
     In value (data (getTopMessages messages)) ->
     exists n,
       value = Num n
       /\ occurrences c (map (fun m => trim (content m)) messages) <= n)
  /\ ((length (labels (getTopMessages messages)) < 7)%nat ->
      forall c,
        In c (map content (filterMessages messages)) ->
        c <> Obj.proto ->
        In c (labels (getTopMessages messages))).
Proof.
  set (counts := messageCountsOf (filterMessages messages)).
  assert (Hentry : forall c, In c (map content (filterMessages messages)) ->
             c <> Obj.proto ->
             exists v, In (c, v) (Obj.entries counts)).
  { intros c Hc Hp.
    assert (Hn : (1 <= times c (map content (filterMessages messages)))%nat)
      by now apply times_In.
    rewrite (filterMessages_times _ _ Hc) in Hn.
    apply jsstring_eqb_neq in Hp.
    destruct (countAfter c (times c (map (fun m => trim (content m)) messages)))
      as [v|] eqn:Hv.
    - exists v. apply entries_In. apply messageCounts_entries. now split.
    - apply (countAfter_None _ _ Hp) in Hv. lia. }
  split.
  - intros Hplain c value Hc Hp Hnot Hvalue.
    unfold getTopMessages in Hnot, Hvalue. simpl in Hnot, Hvalue.
    rewrite (sortedMessages_numeric _ Hplain) in Hnot, Hvalue. fold counts in Hnot, Hvalue.
    apply in_map_iff in Hvalue as ([label v] & <- & Hshown).
    destruct (Hentry c Hc Hp) as (vc & Hvc).
    assert (Hcut : ~ In (c, vc)
                     (firstn 7 (sort (fun a b => numberOf (snd b) - numberOf (snd a))
                                     (Obj.entries counts)))).
    { intro H. apply Hnot. now apply (in_map fst) in H. }
    pose proof (ranking_cut (fun e : jsstring * Count => numberOf (snd e))
                  (Obj.entries counts) (label, v) (c, vc) Hshown Hvc Hcut) as Hle.
    simpl in Hle.
    apply firstn_incl in Hshown. apply (proj1 (sort_In _ _ _)) in Hshown.
    apply (proj1 (entries_In _ _)) in Hshown, Hvc.
    apply (messageCounts_numeric _ _ Hplain) in Hshown, Hvc. simpl in Hshown, Hvc.
    rewrite Hshown, Hvc in Hle. simpl in Hle.
    rewrite (filterMessages_times _ _ Hc) in Hle.
    exists (Z.of_nat (times label (map content (filterMessages messages)))).
    split; [exact Hshown|]. rewrite occurrences_times. exact Hle.
  - intros Hfew c Hc Hp.
    unfold getTopMessages in *. simpl in *.
    rewrite sortedMessages_firstn in *. fold counts in Hfew |- *.
    rewrite length_map in Hfew.
    destruct (Hentry c Hc Hp) as (vc & Hvc).
    apply (in_map fst) in Hvc. simpl in Hvc.
    eapply Permutation_in; [|exact Hvc].
    apply Permutation_map, Permutation_sym, ranking_all. exact Hfew.
Qed.

Lemma getTopMessages_selection_witness :
  In (str "ok")
     (labels (getTopMessages
                [message (str "A") (str "ok") None; message (str "B") (str "I like it") None])).
Proof.
  apply (proj2 (getTopMessages_selection
                  [message (str "A") (str "ok") None;
                   message (str "B") (str "I like it") None])).
  - vm_compute. repeat constructor.
  - left. reflexivity.
  - discriminate.
Defined.

Lemma messageCounts_contents (l : list Message) :
  forall o, fold_left countMessage l o = fold_left countContent (map content l) o.
Proof.
  induction l as [|m l IH]; intro o; simpl; [reflexivity|].
  now rewrite IH.
Qed.

(** [getTopMessages] looks at the contents only: two lists of messages
    with the same contents, in the same order, give the same chart,
    whoever sent them and whenever. *)
Theorem getTopMessages_contents_only (messages messages' : list Message) :
  map content messages = map content messages' ->
  getTopMessages messages = getTopMessages messages'.
Proof.
  intro H. unfold getTopMessages, sortedMessages, messageCountsOf.
  rewrite !messageCounts_contents, !filterMessages_contents.
  replace (map (fun m => trim (content m)) messages)
    with (map trim (map content messages)) by now rewrite map_map.
  replace (map (fun m => trim (content m)) messages')
    with (map trim (map content messages')) by now rewrite map_map.
  now rewrite H.
Qed.

Lemma getTopMessages_contents_only_witness :
  getTopMessages [message (str "A") (str "ok") (Some 1)]
  = getTopMessages [message (str "B") (str "ok") None].
Proof.
  apply (getTopMessages_contents_only
           [message (str "A") (str "ok") (Some 1)] [message (str "B") (str "ok") None]).
  reflexivity.
Defined.

(** ** More on [filterMessages] *)

Lemma withTrimmedContent_idempotent (m : Message) :
  withTrimmedContent (withTrimmedContent m) = withTrimmedContent m.
Proof. unfold withTrimmedContent. simpl. now rewrite trim_idempotent. Qed.

(** Filtering what [filterMessages] returned changes nothing. *)
Theorem filterMessages_idempotent (messages : list Message) :
  filterMessages (filterMessages messages) = filterMessages messages.
Proof.
  unfold filterMessages.
  induction messages as [|m messages IH]; simpl; [reflexivity|].
  destruct (keepMessage (withTrimmedContent m)) eqn:E; simpl; [|exact IH].
  rewrite withTrimmedContent_idempotent, E. now f_equal.
Qed.

Lemma includes_trans (s middle sub : jsstring) :
  includes middle sub = true -> includes s middle = true -> includes s sub = true.
Proof.
  rewrite !includes_spec.
  intros (b1 & a1 & ->) (b2 & a2 & ->).
  exists (b2 ++ b1), (a1 ++ a2). now rewrite <- !app_assoc.
Qed.

(** The test for "liked a message" never decides: a content is kept
    exactly when it is not empty, has neither "attachment" nor "like"
    in its lower-case form and is ASCII only.  So every content with
    "like" in it, in any case, is dropped ("I like it", "Unlikely"). *)
Theorem keepMessage_like_decides (m : Message) :
  keepMessage m
  = nonEmpty (content m)
    && negb (includes (toLowerCase (content m)) (str "attachment"))
    && negb (includes (toLowerCase (content m)) (str "like"))
    && negb (existsb (fun c => negb (isAscii c)) (content m)).
Proof.
  unfold keepMessage.
  destruct (includes (toLowerCase (content m)) (str "liked a message")) eqn:E.
  - assert (includes (toLowerCase (content m)) (str "like") = true) as ->.
    { eapply includes_trans; [|exact E]. reflexivity. }
    simpl. now rewrite !andb_false_r.
  - simpl. now rewrite andb_true_r.
Qed.

(** ** The chart of senders after an upload *)

Lemma totalMessages_sumZ (um : UserMessages) :
  Z.of_nat (totalMessages um) = sumZ (map (fun e => Z.of_nat (length (snd e))) um).
Proof.
  unfold totalMessages. induction um as [|e um IH]; simpl; [reflexivity|]. lia.
Qed.

Lemma userCounts_entries (um : UserMessages) :
  NoDup (map fst um) ->
  map (fun user =>
         (user, match Obj.get um user with
                | Some array => Z.of_nat (length array)
                | None => 0
                end)) (Obj.keys um)
  = map (fun e => (fst e, Z.of_nat (length (snd e)))) (Obj.entries um).
Proof.
  intro Hnd. unfold Obj.keys. rewrite map_map. apply map_ext_in.
  intros [k v] He. apply (proj1 (entries_In _ _)) in He.
  simpl. now rewrite (In_get _ _ _ Hnd He).
Qed.

(** After an upload the chart of senders shows no sender twice, every
    count shown is at least 1, the counts add up to at most the number
    of records that the loop stores (both fields decode, the sender
    name is not an inherited one), and to exactly that number when
    fewer than seven senders are shown. *)
Theorem getChartData_after_upload (previous : option UserMessages) (messages : list Raw.t) :
  NoDup (labels (getChartData (handleFileUpload previous messages)))
  /\ Forall (fun count => 1 <= count) (data (getChartData (handleFileUpload previous messages)))
  /\ sumZ (data (getChartData (handleFileUpload previous messages)))
     <= Z.of_nat (length (filter stored messages))
  /\ ((length (labels (getChartData (handleFileUpload previous messages))) < 7)%nat ->
      sumZ (data (getChartData (handleFileUpload previous messages)))
      = Z.of_nat (length (filter stored messages))).
Proof.
  destruct (forEach_wellFormed messages Obj.empty) as (um & Hrun & Hnd & Hne);
    [constructor | constructor | intros k seq [] |].
  destruct (normalize_spec messages) as (um' & Hrun' & _ & Htot).
  unfold normalize in Hrun'. rewrite Hrun in Hrun'. injection Hrun' as <-.
  unfold handleFileUpload, normalize. rewrite Hrun. simpl.
  rewrite topUsers_firstn, (userCounts_entries um Hnd), <- Htot.
  set (counts := map (fun e : jsstring * list Message =>
                        (fst e, Z.of_nat (length (snd e)))) (Obj.entries um)).
  assert (Hsum : sumZ (map snd counts) = Z.of_nat (totalMessages um)).
  { rewrite totalMessages_sumZ. unfold counts. rewrite map_map. simpl.
    apply sumZ_Permutation, Permutation_map, entries_Permutation. }
  assert (Hpos : Forall (fun e : jsstring * Z => 1 <= snd e) counts).
  { apply Forall_forall. intros e He. unfold counts in He.
    apply in_map_iff in He as ([k seq] & <- & He). simpl.
    apply (proj1 (entries_In _ _)) in He. apply Hne in He.
    destruct seq; [contradiction | simpl; lia]. }
  assert (Hsorted : Permutation (sort (fun a b => snd b - snd a) counts) counts)
    by apply sort_Permutation.
  split; [|split; [|split]].
  - apply ranking_NoDup. unfold counts. rewrite map_map. simpl.
    now apply entries_keys_NoDup.
  - apply Forall_forall. intros v Hv.
    apply in_map_iff in Hv as (e & <- & He). apply ranking_In in He.
    now apply (proj1 (Forall_forall _ _) Hpos).
  - rewrite <- Hsum, <- (sumZ_Permutation _ _ (Permutation_map snd Hsorted)).
    rewrite <- firstn_map. apply sumZ_firstn.
    apply Forall_forall. intros v Hv. apply in_map_iff in Hv as (e & <- & He).
    apply (Permutation_in _ Hsorted) in He.
    apply (proj1 (Forall_forall _ _) Hpos) in He. lia.
  - intro Hfew. rewrite length_map in Hfew. rewrite <- Hsum.
    apply sumZ_Permutation, Permutation_map, ranking_all. exact Hfew.
Qed.

Lemma getChartData_after_upload_witness :
  sumZ (data (getChartData
                (handleFileUpload None
                   [rawMessage (str "A") (str "hi") None;
                    rawMessage (str "toString") (str "hm") None;
                    rawMessage (str "A") (str "yo") None])))
  = Z.of_nat (length (filter stored
                        [rawMessage (str "A") (str "hi") None;
                         rawMessage (str "toString") (str "hm") None;
                         rawMessage (str "A") (str "yo") None])).
Proof.
  apply (proj2 (proj2 (proj2 (getChartData_after_upload None
           [rawMessage (str "A") (str "hi") None;
            rawMessage (str "toString") (str "hm") None;
            rawMessage (str "A") (str "yo") None])))).
  vm_compute. repeat constructor.
Defined.

(** A sender of the mapping who is not in the chart has no more
    messages than any sender in it, and when fewer than seven senders
    are shown every sender of the mapping is shown. *)
Theorem getChartData_selection (userMessages : UserMessages) :
  (forall user array count,
      Obj.get userMessages user = Some array ->
      ~ In user (labels (getChartData (Some userMessages))) ->
      In count (data (getChartData (Some userMessages))) ->
      Z.of_nat (length array) <= count)
  /\ ((length (labels (getChartData (Some userMessages))) < 7)%nat ->
      forall user array,
        Obj.get userMessages user = Some array ->
        In user (labels (getChartData (Some userMessages)))).
Proof.
  simpl. rewrite topUsers_firstn.
  set (counts := map (fun user =>
                        (user, match Obj.get userMessages user with
                               | Some array => Z.of_nat (length array)
                               | None => 0
                               end)) (Obj.keys userMessages)).
  assert (Hentry : forall user array,
             Obj.get userMessages user = Some array ->
             In (user, Z.of_nat (length array)) counts).
  { intros user array Hget. unfold counts. apply in_map_iff.
    exists user. rewrite Hget. split; [reflexivity|].
    unfold Obj.keys. apply get_In in Hget.
    apply (proj2 (entries_In _ _)) in Hget.
    now apply (in_map fst) in Hget. }
  split.
  - intros user array count Hget Hnot Hcount.
    apply in_map_iff in Hcount as ([shown v] & <- & Hshown).
    apply (ranking_cut snd counts (shown, v) (user, Z.of_nat (length array)));
      [exact Hshown | now apply Hentry |].
    intro H. apply Hnot. now apply (in_map fst) in H.
  - intros Hfew user array Hget. rewrite length_map in Hfew.
    apply Hentry, (in_map fst) in Hget. simpl in Hget.
    eapply Permutation_in; [|exact Hget].
    apply Permutation_map, Permutation_sym, ranking_all. exact Hfew.
Qed.

Lemma getChartData_selection_witness :
  In (str "A")
     (labels (getChartData (Some [(str "A", [firstMessage]); (str "B", [])]))).
Proof.
  apply (proj2 (getChartData_selection [(str "A", [firstMessage]); (str "B", [])]))
    with (array := [firstMessage]).
  - vm_compute. repeat constructor.
  - reflexivity.
Defined.

(** ** [decodeUnicode] on escaped text *)

Lemma hexDigit_hexChar (d : Z) : 0 <= d < 16 -> hexDigit (hexChar d) = Some d.
Proof.
  intro H.
  assert (d = 0 \/ d = 1 \/ d = 2 \/ d = 3 \/ d = 4 \/ d = 5 \/ d = 6 \/ d = 7
          \/ d = 8 \/ d = 9 \/ d = 10 \/ d = 11 \/ d = 12 \/ d = 13 \/ d = 14
          \/ d = 15) as E by lia.
  repeat (destruct E as [-> | E]; [reflexivity|]). now subst d.
Qed.

Lemma parseHex4_escapeUnit (n : Z) :
  0 <= n < 65536 ->
  parseHex4 (hexChar (n / 4096)) (hexChar (n / 256 mod 16))
            (hexChar (n / 16 mod 16)) (hexChar (n mod 16)) = Some n.
Proof.
  intro H. unfold parseHex4.
  rewrite !hexDigit_hexChar;
    try (apply Z.mod_pos_bound; lia);
    try (split; [apply Z.div_pos; lia | apply Z.div_lt_upper_bound; lia]).
  f_equal.
  assert (E2 : n / 256 = n / 16 / 16) by (rewrite Z.div_div by lia; reflexivity).
  assert (E3 : n / 4096 = n / 16 / 16 / 16) by (rewrite !Z.div_div by lia; reflexivity).
  rewrite E2, E3.
  pose proof (Z.div_mod n 16 ltac:(lia)) as D1.
  pose proof (Z.div_mod (n / 16) 16 ltac:(lia)) as D2.
  pose proof (Z.div_mod (n / 16 / 16) 16 ltac:(lia)) as D3.
  lia.
Qed.

Lemma replaceEscapes_escapeUnit (n : Z) (rest : jsstring) :
  0 <= n < 65536 ->
  replaceEscapes (escapeUnit n ++ rest) = n :: replaceEscapes rest.
Proof.
  intro H. unfold escapeUnit.
  cbn [app replaceEscapes]. rewrite !Z.eqb_refl. cbn [andb].
  now rewrite (parseHex4_escapeUnit n H).
Qed.

Lemma replaceEscapes_escapeAll (s : jsstring) :
  Forall (fun n => 0 <= n < 65536) s -> replaceEscapes (escapeAll s) = s.
Proof.
  unfold escapeAll. induction 1 as [|n s Hn Hs IH]; [reflexivity|].
  cbn [flat_map]. rewrite (replaceEscapes_escapeUnit n _ Hn). now rewrite IH.
Qed.

(** The first pass of [decodeUnicode] undoes the escaping: on a string
    in which every code unit is written as an escape (a backslash, the
    letter u, four lower-case hexadecimal digits), [decodeUnicode]
    returns, or throws, what [utf8.decode] does on the string that was
    escaped. *)
Theorem decodeUnicode_escapeAll (s : jsstring) :
  Forall (fun n => 0 <= n < 65536) s ->
  decodeUnicode (escapeAll s) = Utf8.decode s.
Proof.
  intro H. unfold decodeUnicode.
  destruct (escapeAll s) as [|c rest] eqn:E.
  - destruct s as [|n s]; [reflexivity | discriminate E].
  - rewrite <- E. now rewrite (replaceEscapes_escapeAll s H).
Qed.

Lemma decodeUnicode_escapeAll_witness :
  decodeUnicode (escapeAll [0xC3; 0xA9]) = Utf8.decode [0xC3; 0xA9].
Proof.
  apply (decodeUnicode_escapeAll [0xC3; 0xA9]).
  repeat (apply Forall_cons; [lia|]). apply Forall_nil.
Defined.
